(** * ghmm_em: EM for hidden Markov models with exponential-family emissions

    A shallow embedding of [examples/ghmm_em.py] and the properties of its
    numeric utilities, its exponential families and its EM driver.

    Conventions of the embedding.
    - A float is an exact real ([R] of the Standard Library).  The
      non-finite floats ([inf], [nan]) have no counterpart; [np.log] is
      [ln], which agrees with it on positive arguments only.
    - An [ndarray] carries its shape in its type: a matrix ['M[R]_(m, n)], a
      one-dimensional array a row ['rV[R]_n] (a column ['cV[R]_n] where the
      code multiplies a matrix by it), a scalar a real.
    - A Python tuple is a product; [t + (x,)] is the pair [(t, x)].
    - The file is Python 2 ([__metaclass__], [np.array(map(...))]): [map]
      is eager and returns a list.
    - A raised exception is a value of [exn]; code that can raise returns a
      [result].  A free name is looked up in the module's global namespace
      when the enclosing function runs. *)

From Stdlib Require Import Reals Lra ClassicalEpsilon FunctionalExtensionality.
From Stdlib Require Import String.
From HB Require Import structures.
From mathcomp Require Import boot algebra.

Set Implicit Arguments.
Unset Strict Implicit.
Unset Printing Implicit Defensive.

Set Warnings "-notation-overridden,-ambiguous-paths".
Set Warnings "-redundant-canonical-projection,-deprecated".

Import GRing.Theory.

Delimit Scope R_scope with Re.
Local Open Scope ring_scope.

(** ** The reals as a MathComp field

    The matrix library needs the algebraic structure of its coefficients;
    the operations are those of the Standard Library. *)

Definition Req_bool (x y : R) : bool := if Req_EM_T x y then true else false.

Lemma Req_boolP : Equality.axiom Req_bool.
Proof.
by move=> x y; rewrite /Req_bool; case: (Req_EM_T x y) => h; constructor.
Qed.

HB.instance Definition _ := hasDecEq.Build R Req_boolP.

Definition R_find (P : pred R) (n : nat) : option R :=
  match excluded_middle_informative (exists x, P x) with
  | left ex => Some (proj1_sig (constructive_indefinite_description _ ex))
  | right _ => None
  end.

Lemma R_find_correct (P : pred R) n x : R_find P n = Some x -> P x.
Proof.
rewrite /R_find; case: excluded_middle_informative => // ex [<-].
exact: (proj2_sig (constructive_indefinite_description _ ex)).
Qed.

Lemma R_find_complete (P : pred R) : (exists x, P x) -> exists n, R_find P n.
Proof.
by move=> ex; exists 0%N; rewrite /R_find; case: excluded_middle_informative.
Qed.

Lemma R_find_ext (P Q : pred R) : P =1 Q -> R_find P =1 R_find Q.
Proof. by move=> /functional_extensionality ->. Qed.

HB.instance Definition _ :=
  hasChoice.Build R R_find_correct R_find_complete R_find_ext.

Lemma RaddA : associative Rplus.
Proof. by move=> x y z; rewrite Rplus_assoc. Qed.

HB.instance Definition _ := GRing.isNmodule.Build R RaddA Rplus_comm Rplus_0_l.
HB.instance Definition _ := GRing.Nmodule_isZmodule.Build R Rplus_opp_l.

Lemma RmulA : associative Rmult.
Proof. by move=> x y z; rewrite Rmult_assoc. Qed.

Lemma RmulDl : left_distributive Rmult Rplus.
Proof. by move=> x y z; rewrite Rmult_plus_distr_r. Qed.

Lemma R1_neq0 : R1 != R0.
Proof. by apply/eqP; exact: R1_neq_R0. Qed.

HB.instance Definition _ :=
  GRing.Zmodule_isComNzRing.Build R RmulA Rmult_comm Rmult_1_l RmulDl R1_neq0.

Definition Runit : pred R := fun x => x != 0%Re.

Definition Rinvx (x : R) : R := if x != 0%Re then Rinv x else x.

Lemma RmulVx : {in Runit, left_inverse 1%Re Rinvx Rmult}.
Proof.
move=> x; rewrite /in_mem /= /Runit /Rinvx => xn0; rewrite xn0.
by apply: Rinv_l; apply/eqP.
Qed.

Lemma RunitPl (x y : R) : (y * x)%Re = 1%Re -> Runit x.
Proof.
move=> yx1; apply/eqP => x0; move: yx1; rewrite x0 Rmult_0_r => /esym.
exact: R1_neq_R0.
Qed.

Lemma Rinvx_out : {in predC Runit, Rinvx =1 id}.
Proof.
by move=> x; rewrite /in_mem /= /Runit /Rinvx negbK => /eqP ->; rewrite eqxx.
Qed.

HB.instance Definition _ :=
  GRing.ComNzRing_hasMulInverse.Build R RmulVx RunitPl Rinvx_out.

Lemma R_idomain : GRing.integral_domain_axiom R.
Proof.
move=> x y xy0; case: (Rmult_integral x y xy0) => ->; first by rewrite eqxx.
by rewrite eqxx orbT.
Qed.

HB.instance Definition _ := GRing.ComUnitRing_isIntegral.Build R R_idomain.

Lemma R_fieldP : GRing.field_axiom R.
Proof. by []. Qed.

HB.instance Definition _ := GRing.UnitRing_isField.Build R R_fieldP.

(** The ring operations on [R] are the Standard Library's, by computation. *)

Lemma RinvE (x : R) : x != 0 -> x^-1 = (/ x)%Re.
Proof. by move=> xn0; rewrite /GRing.inv /= /Rinvx xn0. Qed.

(** [to_R] exposes the Standard Library's operations to [Lra.lra]. *)

Ltac to_R :=
  rewrite /GRing.add /GRing.zero /GRing.opp /GRing.mul /GRing.one /=.

(** ** Exceptions and results *)

Inductive exn : Type :=
  | NameError (name : string)
  | ValueError
  | LinAlgError
  | NotImplementedError
  | TypeError.

Inductive result (A : Type) : Type :=
  | Ok (a : A)
  | Raise (e : exn).

Arguments Ok {A} a.
Arguments Raise {A} e.

Definition bind {A B : Type} (r : result A) (k : A -> result B) : result B :=
  match r with
  | Ok a => k a
  | Raise e => Raise e
  end.

Notation "x <- r ;; k" := (bind r (fun x => k))
  (at level 100, r at next level, right associativity,
   format "'[v' x  <-  r  ;;  '/' k ']'").

(** Python 2's [map(f, l)] with an [f] that can raise: the elements are
    visited in order and the first exception aborts the whole call. *)

Fixpoint tmapM {A B : Type} (f : A -> result B) (n : nat) :
    n.-tuple A -> result (n.-tuple B) :=
  match n with
  | 0 => fun _ => Ok [tuple]
  | n'.+1 => fun t =>
      y <- f (thead t) ;;
      ys <- tmapM f (behead_tuple t) ;;
      Ok (cons_tuple y ys)
  end.

(** ** Numeric utilities (lines 11-35) *)

(** [np.allclose(a, b)] with its default tolerances [rtol=1e-05],
    [atol=1e-08]: every entry satisfies [|a - b| <= atol + rtol * |b|]. *)

Definition rtol : R := (1 / 100000)%Re.
Definition atol : R := (1 / 100000000)%Re.

Definition isclose (a b : R) : bool :=
  if Rle_dec (Rabs (a - b)) (atol + rtol * Rabs b) then true else false.

Definition allclose {m n : nat} (a b : 'M[R]_(m, n)) : bool :=
  [forall i, forall j, isclose (a i j) (b i j)].

(** [same(a, b)]: [np.allclose] on an array, and on anything else the
    conjunction of [same] over the paired components.  The [isinstance]
    test is resolved by the type of the argument. *)

Class Same (X : Type) : Type := same : X -> X -> bool.

#[global] Instance same_ndarray (m n : nat) : Same 'M[R]_(m, n) :=
  fun a b => allclose a b.

#[global] Instance same_pair (X Y : Type) (sX : Same X) (sY : Same Y) :
    Same (X * Y) :=
  fun a b => same a.1 b.1 && same a.2 b.2.

#[global] Instance same_list (X : Type) (sX : Same X) (n : nat) :
    Same (n.-tuple X) :=
  fun a b => all2 same a b.

(** [fixed_point(f, x0)].  The [while] loop is unrolled at most [fuel]
    times; [None] says that the loop was still running then. *)

Section FixedPoint.

Context {X : Type} {sX : Same X}.
Variable f : X -> result X.

Fixpoint fixed_point_loop (fuel : nat) (x0 x1 : X) : option (result X) :=
  if same x0 x1 then Some (Ok x1)
  else match fuel with
       | 0 => None
       | fuel'.+1 =>
           match f x1 with
           | Ok x2 => fixed_point_loop fuel' x1 x2
           | Raise e => Some (Raise e)
           end
       end.

Definition fixed_point (fuel : nat) (x0 : X) : option (result X) :=
  match f x0 with
  | Ok x1 => fixed_point_loop fuel x0 x1
  | Raise e => Some (Raise e)
  end.

End FixedPoint.

(** [normalize(a)]: every row is divided by its sum, the sum being
    replaced by [1.] where it is not positive.  A one-dimensional array is
    the single row of a ['rV_n]. *)

Definition replace_zeros (a : R) : R := if Rlt_dec 0 a then a else 1.

Definition normalize {m n : nat} (a : 'M[R]_(m, n)) : 'M[R]_(m, n) :=
  \matrix_(i, j) (a i j / replace_zeros (\sum_k a i k)).

(** [inner(a, b)]: the sum, starting from [0], of [contract] over the
    paired components of two tuples of arrays.  A tuple is a product
    whose last component is its last array. *)

Class Contract (X : Type) : Type := contract : X -> X -> R.

#[global] Instance contract_ndarray (m n : nat) : Contract 'M[R]_(m, n) :=
  fun x y => \sum_i \sum_j x i j * y i j.

#[global] Instance contract_scalar : Contract R :=
  fun x y => x * y.

Class Inner (X : Type) : Type := inner : X -> X -> R.

#[global] Instance inner_one (X : Type) (cX : Contract X) : Inner X | 10 :=
  fun a b => 0 + contract a b.

#[global] Instance inner_snoc (X Y : Type) (iX : Inner X) (cY : Contract Y) :
    Inner (X * Y) | 5 :=
  fun a b => inner a.1 b.1 + contract a.2 b.2.

(** ** Library functions the program calls *)

(** [np.log], on a positive float. *)

Definition np_log (x : R) : R := ln x.

(** [np.linalg.inv], [np.linalg.solve] and [np.linalg.det] in exact
    arithmetic: the first two raise [LinAlgError] on a singular matrix.
    The library tests the rounded pivots of an LU factorisation, which a
    singular matrix of floats can pass and an invertible one can fail:
    which matrices of floats it rejects is not a property of this
    embedding. *)

Definition linalg_inv {n : nat} (a : 'M[R]_n) : result 'M[R]_n :=
  if a \in unitmx then Ok (invmx a) else Raise LinAlgError.

Definition linalg_solve {n : nat} (a : 'M[R]_n) (b : 'cV[R]_n) :
    result 'cV[R]_n :=
  if a \in unitmx then Ok (invmx a *m b) else Raise LinAlgError.

Definition linalg_det {n : nat} (a : 'M[R]_n) : R := \det a.

(** [np.dot] of two one-dimensional arrays, and [np.outer]. *)

Definition np_dot {n : nat} (u v : 'cV[R]_n) : R := \sum_i u i ord0 * v i ord0.

Definition np_outer {n : nat} (u v : 'cV[R]_n) : 'M[R]_n := u *m v^T.

(** Modelled from the spec: [logsumexp] of [autograd.scipy.misc], which is
    not among the sources.  The spec calls it a numerically stable
    log-sum-exp: the maximum is subtracted before exponentiating and added
    back to the logarithm.  A reduction over no element has no maximum and
    raises [ValueError]. *)

Definition amax (x : R) (s : seq R) : R := foldr Rmax x s.

Definition stable_lse (x : R) (s : seq R) : R :=
  let a_max := amax x s in
  ln (\sum_(a <- x :: s) exp (a - a_max)) + a_max.

Definition logsumexp (s : seq R) : result R :=
  match s with
  | [::] => Raise ValueError
  | x :: s' => Ok (stable_lse x s')
  end.

(** [logsumexp(a, axis=0)]: one reduction per column, down the rows. *)

Definition logsumexp_axis0 {m n : nat} : 'M[R]_(m, n) -> result 'rV[R]_n :=
  match m with
  | 0 => fun _ => Raise ValueError
  | m'.+1 => fun a =>
      Ok (\row_j stable_lse (a ord0 j)
                            [seq a (lift ord0 i) j | i <- enum 'I_m'])
  end.

Arguments logsumexp_axis0 : simpl never.

(** [logsumexp(a)] of a one-dimensional array. *)

Definition logsumexp_1d {n : nat} (a : 'rV[R]_n) : result R :=
  logsumexp [seq a ord0 j | j <- enum 'I_n].

(** ** Exponential families (lines 38-90) *)

(** The collaborator [obs] handed to [EM]: the capability set of [ExpFam].
    [theta] is the type of its parameters, [eta_t] the tuple of arrays of
    its natural parameters and of its sufficient statistics, [obs_t] the
    type of one observation. *)

Module ExpFam.

Record type : Type := {
  theta : Type;
  eta_t : Type;
  obs_t : Type;
  eta : theta -> result eta_t;
  statistic : obs_t -> eta_t;
  logZ : eta_t -> result R;
  eta_inner : Inner eta_t;
  theta_same : Same theta
}.

End ExpFam.

#[global] Existing Instance ExpFam.eta_inner.
#[global] Existing Instance ExpFam.theta_same.

Module Gaussian.

Section Dim.

Variable D : nat.

Definition eta (theta : 'cV[R]_D * 'M[R]_D) : result ('M[R]_D * 'cV[R]_D) :=
  let: (mu, Sigma) := theta in
  J <- linalg_inv Sigma ;;
  let h := J *m mu in
  Ok ((- 1 / 2)%Re *: J, h).

Definition statistic (y : 'cV[R]_D) : 'M[R]_D * 'cV[R]_D :=
  (np_outer y y, y).

Definition logZ (eta : 'M[R]_D * 'cV[R]_D) : result R :=
  let J := (- 2)%Re *: eta.1 in
  let h := eta.2 in
  x <- linalg_solve J h ;;
  Ok ((- 1 / 2)%Re * np_dot h x + (1 / 2)%Re * np_log (linalg_det J)).

Definition family : ExpFam.type := {|
  ExpFam.theta := 'cV[R]_D * 'M[R]_D;
  ExpFam.eta_t := 'M[R]_D * 'cV[R]_D;
  ExpFam.obs_t := 'cV[R]_D;
  ExpFam.eta := eta;
  ExpFam.statistic := statistic;
  ExpFam.logZ := logZ;
  ExpFam.eta_inner := _;
  ExpFam.theta_same := _
|}.

End Dim.

End Gaussian.

Arguments Gaussian.eta : simpl never.
Arguments Gaussian.logZ : simpl never.
Arguments Gaussian.statistic : simpl never.

Module NormalInverseWishart.

(** The class defines [eta], [statistic] and [logZ] without the
    [@staticmethod] that the methods of [Gaussian] carry.  In Python 2 the
    attribute [NormalInverseWishart.logZ] is then an unbound method, which
    checks that its first argument is an instance of the class before the
    function runs, and [instance.logZ] is a bound method, which passes the
    instance as the first argument.

    A value as these calls tell them apart: [Inst], an instance of the
    class (the class defines no [__iter__], so that an instance cannot be
    unpacked); [Items], a sequence (tuple, list or array) with its items;
    [Obj], any other object, which is neither.  The module has no
    subclass of the class, so that no instance is iterable. *)

Inductive value (T : Type) : Type :=
  | Inst
  | Items (items : seq T)
  | Obj.

Arguments Inst {T}.
Arguments Obj {T}.

(** [A, b, c, d = eta] (line 89): [ValueError] for a sequence that has not
    exactly four items, [TypeError] for an object that is not iterable. *)

Definition unpack4 {T : Type} (eta : value T) : result (T * T * T * T) :=
  match eta with
  | Items [:: A; b; c; d] => Ok (A, b, c, d)
  | Items _ => Raise ValueError
  | Inst | Obj => Raise TypeError
  end.

(** The function that [def logZ(eta)] creates (lines 88-90). *)

Definition logZ_function {T : Type} (eta : value T) : result R :=
  _ <- unpack4 eta ;;
  Raise NotImplementedError.

(** The call of a function of one parameter on positional arguments:
    [TypeError] unless there is exactly one. *)

Definition call1 {A B : Type} (f : A -> result B) (args : seq A) :
    result B :=
  match args with
  | [:: a] => f a
  | _ => Raise TypeError
  end.

(** [Class.f(args)], [f] a function of one parameter defined in the class
    body: [TypeError] unless the first argument is an instance. *)

Definition unbound_method {T B : Type} (f : value T -> result B)
    (args : seq (value T)) : result B :=
  match args with
  | Inst :: _ => call1 f args
  | _ => Raise TypeError
  end.

(** [instance.f(args)]: the instance comes first. *)

Definition bound_method {T B : Type} (f : value T -> result B)
    (args : seq (value T)) : result B :=
  call1 f (Inst :: args).

(** [NormalInverseWishart.logZ(eta)] and
    [NormalInverseWishart().logZ(...)], the latter on any number of
    arguments. *)

Definition logZ {T : Type} (eta : value T) : result R :=
  unbound_method logZ_function [:: eta].

Definition instance_logZ {T : Type} (args : seq (value T)) : result R :=
  bound_method logZ_function args.

(** The function [statistic], entered with [y] bound to a Gaussian
    parameter pair [(mu, Sigma)]: it returns
    [Gaussian.eta(y) + (-Gaussian.logZ(Gaussian.eta(y)),)], evaluating
    [Gaussian.eta(y)] twice.  This is the function that [def statistic(y)]
    creates, not its call through the class, which the unbound method
    refuses as it does for [logZ]. *)

Definition statistic {D : nat} (y : 'cV[R]_D * 'M[R]_D) :
    result ('M[R]_D * 'cV[R]_D * R) :=
  e <- Gaussian.eta y ;;
  e' <- Gaussian.eta y ;;
  z <- Gaussian.logZ e' ;;
  Ok (e, - z).

End NormalInverseWishart.

(** ** The HMM and its EM driver (lines 93-126) *)

(** The two free names that the functions nested in [EM] use.  A free
    name is resolved in the global namespace of the module at the moment
    the expression is evaluated, and raises [NameError] when the module has
    no such name. *)

Record globals (obs : ExpFam.type) : Type := {
  g_statistic : option (ExpFam.obs_t obs -> ExpFam.eta_t obs);
  g_max_likelihood :
    option (ExpFam.eta_t obs * R -> result (ExpFam.theta obs))
}.

(** The module as it is written binds neither. *)

Definition module_globals (obs : ExpFam.type) : globals obs :=
  {| g_statistic := None; g_max_likelihood := None |}.

Definition lookup {A : Type} (name : string) (binding : option A) : result A :=
  match binding with
  | Some v => Ok v
  | None => Raise (NameError name)
  end.

Section EM.

Variable obs : ExpFam.type.
Variable G : globals obs.
Variable N : nat.

Local Notation theta_t := (ExpFam.theta obs).
Local Notation eta_t := (ExpFam.eta_t obs).
Local Notation obs_t := (ExpFam.obs_t obs).

(** [(pi, A, thetas)] and [(log_pi, log_A, etas)]; the expected statistics
    have the shape of the latter. *)

Definition param_tuple : Type := 'rV[R]_N * 'M[R]_N * N.-tuple theta_t.
Definition natparam_tuple : Type := 'rV[R]_N * 'M[R]_N * N.-tuple (eta_t * R).

(** Modelled from the spec: [grad] of [autograd], which is not among the
    sources.  [grad(f)(x, data)] runs [f] at [x], so that an exception of
    [f] is an exception of the call, and returns the gradient of [f] with
    respect to [x], a tuple of the shape of [x].  The gradient itself is
    [gradient f x], a parameter of the development. *)

Variable gradient :
  (natparam_tuple -> result R) -> natparam_tuple -> natparam_tuple.

Definition grad (f : natparam_tuple -> result R) (x : natparam_tuple) :
    result natparam_tuple :=
  _ <- f x ;;
  Ok (gradient f x).

Definition log_likelihoods (y : obs_t) (etas : N.-tuple (eta_t * R)) :
    result 'rV[R]_N :=
  statistic <- lookup "statistic" (g_statistic G) ;;
  let stat := (statistic y, 1%Re) in
  let log_likelihood := fun eta => inner eta stat in
  Ok (\row_k log_likelihood (tnth etas k)).

(** The [for] loop of [hmm_log_partition_function]. *)

Fixpoint forward_loop (log_A : 'M[R]_N) (etas : N.-tuple (eta_t * R))
    (log_alpha : 'rV[R]_N) (data : seq obs_t) : result 'rV[R]_N :=
  match data with
  | [::] => Ok log_alpha
  | y :: data' =>
      s <- logsumexp_axis0 (\matrix_(i, j) (log_alpha ord0 i + log_A i j)) ;;
      ll <- log_likelihoods y etas ;;
      forward_loop log_A etas (s + ll) data'
  end.

Definition hmm_log_partition_function (natural_params : natparam_tuple)
    (data : seq obs_t) : result R :=
  let: (log_pi, log_A, etas) := natural_params in
  log_alpha <- forward_loop log_A etas log_pi data ;;
  logsumexp_1d log_alpha.

Definition obs_natparam (theta : theta_t) : result (eta_t * R) :=
  e <- ExpFam.eta theta ;;
  e' <- ExpFam.eta theta ;;
  z <- ExpFam.logZ e' ;;
  Ok (e, - z).

Definition E_step (params : param_tuple) (data : seq obs_t) :
    result natparam_tuple :=
  let: (pi, A, thetas) := params in
  etas <- tmapM obs_natparam thetas ;;
  let natural_params := (map_mx np_log pi, map_mx np_log A, etas) in
  grad (fun x => hmm_log_partition_function x data) natural_params.

Definition M_step (expected_stats : natparam_tuple) : result param_tuple :=
  let: (E_init, E_trans, E_obs_statistics) := expected_stats in
  let pi := normalize E_init in
  let A := normalize E_trans in
  max_likelihood <- lookup "max_likelihood" (g_max_likelihood G) ;;
  thetas <- tmapM max_likelihood E_obs_statistics ;;
  Ok (pi, A, thetas).

Definition EM_update (data : seq obs_t) (params : param_tuple) :
    result param_tuple :=
  expected_stats <- E_step params data ;;
  M_step expected_stats.

Definition EM (fuel : nat) (init_params : param_tuple) (data : seq obs_t) :
    option (result param_tuple) :=
  fixed_point (EM_update data) fuel init_params.

End EM.

(** ** The script (lines 129-146) *)

(** The draws of the random generator are the arguments: [data] is
    [npr.randn(10,2)], [u_pi] is [npr.rand(N)], [u_A] is [npr.rand(N, N)]
    and [means] holds the [npr.randn(D)] of the [N] calls of
    [rand_gaussian], with [N = 2] and [D = data.shape[1] = 2].  The loop
    [for y in data] visits the rows of [data]. *)

Definition rand_gaussian {D : nat} (draw : 'cV[R]_D) : 'cV[R]_D * 'M[R]_D :=
  (draw, 1%:M).

Definition rows_of {T D : nat} (data : 'M[R]_(T, D)) : seq 'cV[R]_D :=
  [seq (row t data)^T | t <- enum 'I_T].

Definition main gradient (fuel : nat) (data : 'M[R]_(10, 2))
    (u_pi : 'rV[R]_2) (u_A : 'M[R]_2) (means : 2.-tuple 'cV[R]_2) :
    option (result (param_tuple (Gaussian.family 2) 2)) :=
  let init_pi := normalize u_pi in
  let init_A := normalize u_A in
  let init_obs_params := [tuple of map rand_gaussian means] in
  let init_params := (init_pi, init_A, init_obs_params) in
  EM (module_globals (Gaussian.family 2)) gradient fuel init_params
    (rows_of data).

(** ** Vocabulary of the properties *)

(** The name whose lookup fails first when [EM_update] runs in the module
    as it is written: [statistic] in the first iteration of the forward
    loop, or [max_likelihood] in [M_step] when there is no observation. *)

Definition first_unbound {A : Type} (data : seq A) : string :=
  if data is [::] then "max_likelihood"%string else "statistic"%string.

(** Invertibility, stated without the matrix library's own predicate. *)

Definition is_inverse {n : nat} (a b : 'M[R]_n) : Prop :=
  a *m b = 1%:M /\ b *m a = 1%:M.

Definition invertible {n : nat} (a : 'M[R]_n) : Prop :=
  exists b, is_inverse a b.

(** [Gaussian.logZ(Gaussian.eta((mu, Sigma)))], and the log partition
    function of a Gaussian, [1/2 log|2 pi Sigma| + 1/2 mu^T Sigma^-1 mu]. *)

Definition Gaussian_logZ_eta {D : nat} (theta : 'cV[R]_D * 'M[R]_D) :
    result R :=
  e <- Gaussian.eta theta ;;
  Gaussian.logZ e.

Definition analytic_logZ {D : nat} (mu : 'cV[R]_D) (Sigma : 'M[R]_D) : R :=
  ((1 / 2) * ln (\det ((2 * PI)%Re *: Sigma))
   + (1 / 2) * np_dot mu (invmx Sigma *m mu))%Re.

(** Sums over hidden-state paths. *)

Section Paths.

Variable obs : ExpFam.type.
Variable N : nat.

(** [stat] is the function that the name [statistic] denotes. *)

Variable stat : ExpFam.obs_t obs -> ExpFam.eta_t obs.
Variable log_pi : 'rV[R]_N.
Variable log_A : 'M[R]_N.
Variable etas : N.-tuple (ExpFam.eta_t obs * R).

(** The weight of emitting [y] in state [k]. *)

Definition emission (y : ExpFam.obs_t obs) (k : 'I_N) : R :=
  exp (inner (tnth etas k) (stat y, 1%Re)).

(** All the state sequences of length [T]. *)

Fixpoint paths (T : nat) : seq (seq 'I_N) :=
  match T with
  | 0 => [:: [::]]
  | T'.+1 => [seq z :: p | z <- enum 'I_N, p <- paths T']
  end.

(** From state [z], the weight of moving along [p], each move followed by
    the emission of the next observation. *)

Fixpoint chain_weight (z : 'I_N) (p : seq 'I_N)
    (data : seq (ExpFam.obs_t obs)) : R :=
  match p, data with
  | z' :: p', y :: data' =>
      exp (log_A z z') * emission y z' * chain_weight z' p' data'
  | _, _ => 1
  end.

(** The joint weight of the chain that starts in a state [z0] drawn from
    [pi], which emits nothing, and moves before every observation:
    a path has one state more than there are observations. *)

Definition joint_weight (p : seq 'I_N) (data : seq (ExpFam.obs_t obs)) : R :=
  match p with
  | z0 :: p' => exp (log_pi ord0 z0) * chain_weight z0 p' data
  | [::] => 0
  end.

(** The joint probability of a hidden Markov model whose first state is
    drawn from [pi] and emits the first observation: one state per
    observation. *)

Definition hmm_joint (p : seq 'I_N) (data : seq (ExpFam.obs_t obs)) : R :=
  match p, data with
  | z1 :: p', y1 :: data' =>
      exp (log_pi ord0 z1) * emission y1 z1 * chain_weight z1 p' data'
  | _, _ => 1
  end.

Definition brute_force (data : seq (ExpFam.obs_t obs)) : R :=
  \sum_(p <- paths (size data)) hmm_joint p data.

(** The forward recursion on weights rather than on their logarithms. *)

Fixpoint forward_weights (w : 'I_N -> R) (data : seq (ExpFam.obs_t obs)) :
    'I_N -> R :=
  match data with
  | [::] => w
  | y :: data' =>
      forward_weights
        (fun j => (\sum_i w i * exp (log_A i j)) * emission y j) data'
  end.

(** The total weight of the paths that leave state [z]. *)

Definition tail_weight (z : 'I_N) (data : seq (ExpFam.obs_t obs)) : R :=
  \sum_(p <- paths (size data)) chain_weight z p data.

End Paths.

(** ** Inputs of the examples *)

Definition counts_example : 'M[R]_(2, 2) :=
  \matrix_(i, j) (if i == ord0 then (if j == ord0 then 1 else 3) else 0)%Re.

Definition Sigma_one : 'M[R]_1 := 1%:M.
Definition Sigma_zero : 'M[R]_1 := 0.
Definition mu_one : 'cV[R]_1 := const_mx 1%Re.

(** A two-state Gaussian HMM in one dimension: [pi = (3/4, 1/4)], every
    transition probability [1/2], unit variances, means [0] and [1]; the
    natural parameters of state [k] are [(-1/2, mu_k)] followed by
    [-logZ], which the code evaluates to [mu_k^2 / 2].  One observation,
    [y = 0].  The name [statistic] is bound to the [statistic] of the
    family. *)

Definition gaussian_globals : globals (Gaussian.family 1) :=
  {| g_statistic := Some (@ExpFam.statistic (Gaussian.family 1));
     g_max_likelihood := None |}.

Definition log_pi_example : 'rV[R]_2 :=
  \row_k (if k == ord0 then ln (3 / 4) else ln (1 / 4))%Re.

Definition log_A_example : 'M[R]_2 := const_mx (ln (1 / 2))%Re.

Definition etas_example : 2.-tuple (ExpFam.eta_t (Gaussian.family 1) * R) :=
  [tuple (((- 1 / 2)%Re%:M, 0), 0%Re);
         (((- 1 / 2)%Re%:M, const_mx 1%Re), (1 / 2)%Re)].

Definition y_example : 'cV[R]_1 := 0.

(** An update on one-element arrays, [x |-> 100 x + 1e-9], and the array
    [(0)] it is started from. *)

Definition drift (x : 'M[R]_1) : result 'M[R]_1 :=
  Ok (\matrix_(i, j) (100 * x i j + 1 / 1000000000)%Re).

Definition drift_start : 'M[R]_1 := const_mx 0%Re.

Definition drift_stop : 'M[R]_1 := const_mx (1 / 1000000000)%Re.

(** The parameters of the two-state example, and a one-state model whose
    covariance is singular. *)

Definition pi_example : 'rV[R]_2 :=
  \row_k (if k == ord0 then 3 / 4 else 1 / 4)%Re.

Definition A_example : 'M[R]_2 := const_mx (1 / 2)%Re.

Definition thetas_example : 2.-tuple (ExpFam.theta (Gaussian.family 1)) :=
  [tuple (0, Sigma_one); (mu_one, Sigma_one)].

Definition params_example : param_tuple (Gaussian.family 1) 2 :=
  (pi_example, A_example, thetas_example).

Definition params_singular : param_tuple (Gaussian.family 1) 1 :=
  (const_mx 1%Re, const_mx 1%Re, [tuple (mu_one, Sigma_zero)]).

(** A stand-in for the gradient in runs that raise before [grad] returns. *)

Definition unused_gradient (obs : ExpFam.type) (N : nat)
    (f : natparam_tuple obs N -> result R) (x : natparam_tuple obs N) :
    natparam_tuple obs N :=
  x.

(** A binding for the name [max_likelihood], which the module lacks: the
    maximum-likelihood Gaussian of the expected statistics
    [(sum y y^T, sum y, count)].  With it, the module's two free names are
    bound for a Gaussian family.  Expected statistics of a one-state,
    one-dimensional model on the observations [-1] and [1]. *)

Definition gaussian_max_likelihood {D : nat}
    (E : 'M[R]_D * 'cV[R]_D * R) : result ('cV[R]_D * 'M[R]_D) :=
  let: ((S2, S1), n) := E in
  let mu := n^-1 *: S1 in
  Ok (mu, n^-1 *: S2 - mu *m mu^T).

Definition bound_globals : globals (Gaussian.family 1) :=
  {| g_statistic := Some (@ExpFam.statistic (Gaussian.family 1));
     g_max_likelihood := Some (@gaussian_max_likelihood 1) |}.

Definition stats_example : natparam_tuple (Gaussian.family 1) 1 :=
  (const_mx 1%Re, const_mx 2%Re, [tuple ((const_mx 2%Re, 0), 2%Re)]).

(** * Properties *)

(** ** normalize *)

Lemma replace_zeros_pos (s : R) : (0 < s)%Re -> replace_zeros s = s.
Proof. by rewrite /replace_zeros; case: Rlt_dec. Qed.

Lemma replace_zeros_nonpos (s : R) : (s <= 0)%Re -> replace_zeros s = 1.
Proof. by rewrite /replace_zeros; case: Rlt_dec => // s0 /Rle_not_lt. Qed.

Lemma Rpos_neq0 (s : R) : (0 < s)%Re -> s != 0.
Proof.
by move=> s0; apply/eqP => s_eq; move: s0; rewrite s_eq; to_R; Lra.lra.
Qed.

(** C4 (amended).  A row of [normalize(a)] whose input row has a positive
    sum sums to [1]; a row whose input row has a sum that is not positive
    is the input row, unchanged. *)
Theorem normalize_rows (m n : nat) (a : 'M[R]_(m, n)) (i : 'I_m) :
  ((0 < \sum_k a i k)%Re -> \sum_j normalize a i j = 1) /\
  ((\sum_k a i k <= 0)%Re -> forall j, normalize a i j = a i j).
Proof.
split=> [s0|s0 j].
  have -> : \sum_j normalize a i j = \sum_j a i j / \sum_k a i k.
    by apply: eq_bigr => j _; rewrite mxE replace_zeros_pos.
  by rewrite -mulr_suml divff // Rpos_neq0.
by rewrite mxE replace_zeros_nonpos // divr1.
Qed.


Lemma normalize_rows_witness :
  \sum_j normalize counts_example ord0 j = 1 /\
  forall j, normalize counts_example (lift ord0 ord0) j =
            counts_example (lift ord0 ord0) j.
Proof.
split.
  apply: (proj1 (normalize_rows counts_example ord0)).
  rewrite !big_ord_recl big_ord0 !mxE /=; to_R; Lra.lra.
apply: (proj2 (normalize_rows counts_example (lift ord0 ord0))).
rewrite !big_ord_recl big_ord0 !mxE /=; to_R; Lra.lra.
Defined.

(** C4 as stated fails: the row [(0, 0)] is returned as it is; it is not
    the uniform distribution [(1/2, 1/2)] and does not sum to [1]. *)
Lemma normalize_zero_row_not_uniform :
  let a : 'rV[R]_2 := const_mx 0 in
  (\sum_k a ord0 k <= 0)%Re /\
  normalize a ord0 ord0 <> (1 / 2)%Re /\
  \sum_j normalize a ord0 j <> 1.
Proof.
have r0 : replace_zeros (\sum_(k < 2) (const_mx 0 : 'rV[R]_2) ord0 k) = 1.
  apply: replace_zeros_nonpos.
  by rewrite !big_ord_recl big_ord0 !mxE; to_R; Lra.lra.
split; first by rewrite !big_ord_recl big_ord0 !mxE; to_R; Lra.lra.
split.
  rewrite mxE r0 mxE divr1. to_R. Lra.lra.
rewrite !big_ord_recl big_ord0 !mxE r0 !divr1. to_R. Lra.lra.
Qed.

(** ** NormalInverseWishart.logZ *)

Lemma logZ_function_four_items (T : Type) (A b c d : T) :
  NormalInverseWishart.logZ_function
    (NormalInverseWishart.Items [:: A; b; c; d])
  = Raise NotImplementedError.
Proof. by []. Qed.

(** C7, the code's side.  Whatever its argument,
    [NormalInverseWishart.logZ(eta)] raises [TypeError], not the
    unimplemented-capability error: without [@staticmethod] the call is
    that of an unbound method, which rejects an argument that is no
    instance of the class, and an instance cannot be unpacked.  Called on
    an instance, with or without arguments, [logZ] raises [TypeError] as
    well.  The [raise NotImplementedError] of line 90 is reached by no
    call through the class. *)
Theorem NIW_logZ_TypeError (T : Type) (eta : NormalInverseWishart.value T)
    (args : seq (NormalInverseWishart.value T)) :
  NormalInverseWishart.logZ eta = Raise TypeError /\
  NormalInverseWishart.instance_logZ args = Raise TypeError.
Proof.
split; first by case: eta.
by case: args => [|a [|b args]].
Qed.

(** ** The module's free names *)

Section ModuleGlobals.

Variable obs : ExpFam.type.

Local Notation G := (module_globals obs).

Lemma logsumexp_1d_ok (n : nat) (a : 'rV[R]_n.+1) :
  exists s, logsumexp_1d a = Ok s.
Proof.
rewrite /logsumexp_1d enum_ordSl /=; by eexists.
Qed.

Lemma hmm_raises_on_data (N : nat) (np : natparam_tuple obs N.+1)
    (y : ExpFam.obs_t obs) (data : seq (ExpFam.obs_t obs)) :
  hmm_log_partition_function G np (y :: data) = Raise (NameError "statistic").
Proof. by case: np => [[log_pi log_A] etas]. Qed.

Lemma hmm_no_state (G' : globals obs) (np : natparam_tuple obs 0)
    (data : seq (ExpFam.obs_t obs)) :
  hmm_log_partition_function G' np data = Raise ValueError.
Proof.
case: np => [[log_pi log_A] etas]; case: data => [|y data] //=.
rewrite /logsumexp_1d.
by have -> : enum 'I_0 = [::] by apply: size0nil; rewrite size_enum_ord.
Qed.

Lemma hmm_no_data (G' : globals obs) (N : nat) (np : natparam_tuple obs N) :
  hmm_log_partition_function G' np [::] = logsumexp_1d np.1.1.
Proof. by case: np => [[log_pi log_A] etas]. Qed.


Lemma EM_update_module (N : nat) gradient (data : seq (ExpFam.obs_t obs))
    (p : param_tuple obs N) :
  EM_update G gradient data p =
  match tmapM (obs_natparam (obs:=obs)) p.2 with
  | Raise e => Raise e
  | Ok _ => if N is 0 then Raise ValueError
            else Raise (NameError (first_unbound data))
  end.
Proof.
case: p => [[pi A] thetas]; rewrite /EM_update /E_step /=.
case: (tmapM _ _) => [etas|e] //=; rewrite /grad.
case: N pi A thetas etas gradient => [|N] pi A thetas etas gradient.
  by rewrite hmm_no_state.
case: data => [|y data]; last by rewrite hmm_raises_on_data.
rewrite hmm_no_data /=.
by case: (logsumexp_1d_ok (map_mx np_log pi)) => s -> /=; case: (gradient _ _) => [[? ?] ?].
Qed.

End ModuleGlobals.

(** ** Gaussian.eta and Gaussian.logZ *)


Lemma invertibleP (n : nat) (a : 'M[R]_n) :
  reflect (invertible a) (a \in unitmx).
Proof.
apply: (iffP idP) => [a_unit|[b [ab ba]]].
  by exists (invmx a); split; [rewrite mulmxV | rewrite mulVmx].
by case: (mulmx1_unit ab).
Qed.

Lemma is_inverse_invmx (n : nat) (a : 'M[R]_n) :
  a \in unitmx -> is_inverse a (invmx a).
Proof. by move=> a_unit; split; [rewrite mulmxV | rewrite mulVmx]. Qed.

Lemma Gaussian_eta_unit (D : nat) (mu : 'cV[R]_D) (Sigma : 'M[R]_D) :
  Sigma \in unitmx ->
  Gaussian.eta (mu, Sigma)
    = Ok ((- 1 / 2)%Re *: invmx Sigma, invmx Sigma *m mu).
Proof. by rewrite /Gaussian.eta /linalg_inv => ->. Qed.

Lemma Gaussian_eta_singular (D : nat) (mu : 'cV[R]_D) (Sigma : 'M[R]_D) :
  Sigma \notin unitmx -> Gaussian.eta (mu, Sigma) = Raise LinAlgError.
Proof. by rewrite /Gaussian.eta /linalg_inv => /negbTE ->. Qed.

Lemma Sigma_one_invertible : invertible Sigma_one.
Proof. by apply/invertibleP; rewrite /Sigma_one unitmx1. Qed.

Lemma Sigma_zero_singular : ~ invertible Sigma_zero.
Proof.
by move/invertibleP; rewrite /Sigma_zero unitmxE det0 unitr0.
Qed.

Lemma np_dotC (n : nat) (u v : 'cV[R]_n) : np_dot u v = np_dot v u.
Proof. by apply: eq_bigr => i _; rewrite mulrC. Qed.

Lemma Gaussian_logZ_eta_value (D : nat) (mu : 'cV[R]_D) (Sigma : 'M[R]_D) :
  Sigma \in unitmx -> (0 < \det Sigma)%Re ->
  Gaussian_logZ_eta (mu, Sigma)
    = Ok (- ((1 / 2) * ln (\det Sigma)
             + (1 / 2) * np_dot mu (invmx Sigma *m mu)))%Re.
Proof.
move=> S_unit det_pos.
rewrite /Gaussian_logZ_eta Gaussian_eta_unit //= /Gaussian.logZ /=.
have -> : (- 2)%Re *: ((- 1 / 2)%Re *: invmx Sigma) = invmx Sigma.
  rewrite scalerA; have -> : (- 2)%Re * (- 1 / 2)%Re = 1 by to_R; Lra.lra.
  by rewrite scale1r.
rewrite /linalg_solve unitmx_inv S_unit /= invmxK mulKVmx //.
have det_n0 := Rpos_neq0 det_pos.
rewrite /linalg_det det_inv /np_log RinvE //.
rewrite ln_Rinv // (np_dotC _ mu); congr Ok.
by move: (ln _) (np_dot _ _) => l d; to_R; Lra.lra.
Qed.

Lemma two_pi_gt1 : (1 < 2 * PI)%Re.
Proof. by have := PI2_1; Lra.lra. Qed.

Lemma exprn_pos (x : R) (n : nat) : (0 < x)%Re -> (0 < x ^+ n)%Re.
Proof.
move=> x0; elim: n => [|n IH]; first by rewrite expr0; to_R; Lra.lra.
by rewrite exprS; apply: Rmult_lt_0_compat.
Qed.

Lemma ln_exprn (x : R) (n : nat) :
  (0 < x)%Re -> ln (x ^+ n) = (INR n * ln x)%Re.
Proof.
move=> x0; elim: n => [|n IH].
  by rewrite expr0 [INR 0]/= ln_1; Lra.lra.
have xn0 := exprn_pos n x0.
by rewrite exprS ln_mult // IH S_INR; Lra.lra.
Qed.

(** For every mean and every covariance of positive determinant, the value
    of the code and the log partition function of the Gaussian add up to
    [D/2 log(2 pi)]: apart from that constant, the code returns the
    negation. *)
Lemma Gaussian_logZ_negated (D : nat) (mu : 'cV[R]_D) (Sigma : 'M[R]_D) :
  (0 < \det Sigma)%Re ->
  exists2 v, Gaussian_logZ_eta (mu, Sigma) = Ok v &
             (v + analytic_logZ mu Sigma = INR D / 2 * ln (2 * PI))%Re.
Proof.
move=> det_pos.
have S_unit : Sigma \in unitmx by rewrite unitmxE unitfE; exact: Rpos_neq0.
rewrite (Gaussian_logZ_eta_value _ S_unit det_pos); eexists; first by [].
have two_pi_pos : (0 < 2 * PI)%Re by have := two_pi_gt1; Lra.lra.
have pow_pos := exprn_pos D two_pi_pos.
rewrite /analytic_logZ detZ (ln_mult _ _ pow_pos det_pos) ln_exprn //.
by move: (ln _) (ln _) (np_dot _ _) => a b c; Lra.lra.
Qed.

(** C5, at [mu = (1)], [Sigma = (1)].  The code returns [-1/2], the
    negation of [1/2 mu^T Sigma^-1 mu + 1/2 log|Sigma|]; the analytic value
    is [1/2 log(2 pi) + 1/2], which is positive. *)
Theorem Gaussian_logZ_sign :
  Gaussian_logZ_eta (mu_one, Sigma_one) = Ok (- (1 / 2))%Re /\
  analytic_logZ mu_one Sigma_one = (1 / 2 * ln (2 * PI) + 1 / 2)%Re /\
  (- (1 / 2) < 0 < analytic_logZ mu_one Sigma_one)%Re.
Proof.
have dot1 : np_dot mu_one (invmx Sigma_one *m mu_one) = 1%Re.
  rewrite /Sigma_one invmx1 mul1mx /np_dot big_ord_recl big_ord0 !mxE.
  by to_R; Lra.lra.
have val : analytic_logZ mu_one Sigma_one = (1 / 2 * ln (2 * PI) + 1 / 2)%Re.
  rewrite /analytic_logZ dot1 /Sigma_one detZ det1 expr1 mulr1.
  by Lra.lra.
split.
  have S_unit : Sigma_one \in unitmx by rewrite unitmx1.
  have det_pos : (0 < \det Sigma_one)%Re by rewrite det1; to_R; Lra.lra.
  rewrite (Gaussian_logZ_eta_value _ S_unit det_pos) dot1 det1 ln_1.
  by congr Ok; Lra.lra.
split=> //; rewrite val.
have := ln_increasing _ _ Rlt_0_1 two_pi_gt1; rewrite ln_1.
by Lra.lra.
Qed.

(** ** The log-sum-exp *)

Lemma sum_nonneg (I : Type) (r : seq I) (F : I -> R) :
  (forall i, (0 < F i)%Re) -> (0 <= \sum_(i <- r) F i)%Re.
Proof.
move=> F_pos; elim: r => [|j r IH]; first by rewrite big_nil; to_R; Lra.lra.
by rewrite big_cons; have := F_pos j; move: IH; to_R; Lra.lra.
Qed.

Lemma sum_pos (I : Type) (r : seq I) (F : I -> R) :
  r <> [::] -> (forall i, (0 < F i)%Re) -> (0 < \sum_(i <- r) F i)%Re.
Proof.
case: r => [|i r] // _ F_pos; rewrite big_cons.
by have := F_pos i; have := sum_nonneg r F_pos; to_R; Lra.lra.
Qed.

Lemma sum_exp_pos (I : Type) (r : seq I) (F : I -> R) :
  r <> [::] -> (0 < \sum_(i <- r) exp (F i))%Re.
Proof. by move=> r_n0; apply: sum_pos => // i; exact: exp_pos. Qed.

Lemma sum_ord_exp_pos (n : nat) (F : 'I_n.+1 -> R) :
  (0 < \sum_i exp (F i))%Re.
Proof.
rewrite big_ord_recl; set S := (\sum_(i < n) _).
have S0 : (0 <= S)%Re by apply: sum_nonneg => i; exact: exp_pos.
by have := exp_pos (F ord0); move: S S0 => S S0; to_R; Lra.lra.
Qed.

(** The stable form computes the logarithm of the sum of exponentials. *)

Lemma stable_lse_ln (x : R) (s : seq R) :
  stable_lse x s = ln (\sum_(a <- x :: s) exp a).
Proof.
rewrite /stable_lse; set m := amax x s.
have -> : \sum_(a <- x :: s) exp (a - m)
          = (\sum_(a <- x :: s) exp a) * exp (- m).
  by rewrite mulr_suml; apply: eq_bigr => a _; rewrite exp_plus.
rewrite ln_mult ?ln_exp; [by apply: (@sum_exp_pos _ _ id)|exact: exp_pos|].
by to_R; Lra.lra.
Qed.

Lemma logsumexp_axis0_ln (m n : nat) (a : 'M[R]_(m.+1, n)) :
  logsumexp_axis0 a = Ok (\row_j ln (\sum_i exp (a i j))).
Proof.
rewrite /logsumexp_axis0; congr Ok; apply/rowP => j; rewrite !mxE.
by rewrite stable_lse_ln big_cons big_map big_enum big_ord_recl.
Qed.

Lemma logsumexp_1d_ln (n : nat) (a : 'rV[R]_n.+1) :
  logsumexp_1d a = Ok (ln (\sum_j exp (a ord0 j))).
Proof.
rewrite /logsumexp_1d enum_ordSl /= stable_lse_ln; congr (Ok (ln _)).
by rewrite big_cons -map_comp big_map big_enum big_ord_recl.
Qed.

(** ** The forward algorithm *)

Section Forward.

Variable obs : ExpFam.type.
Variable G : globals obs.
Variable stat : ExpFam.obs_t obs -> ExpFam.eta_t obs.
Hypothesis statistic_bound : g_statistic G = Some stat.

Variable N : nat.
Variable log_A : 'M[R]_N.+1.
Variable etas : N.+1.-tuple (ExpFam.eta_t obs * R).

Local Notation weights := (forward_weights stat log_A etas).
Local Notation tail := (tail_weight stat log_A etas).

Lemma log_likelihoods_bound (y : ExpFam.obs_t obs) :
  log_likelihoods G y etas
    = Ok (\row_k inner (tnth etas k) (stat y, 1%Re)).
Proof. by rewrite /log_likelihoods statistic_bound. Qed.

Lemma forward_weights_ext (w w' : 'I_N.+1 -> R) data :
  w =1 w' -> weights w data =1 weights w' data.
Proof.
rewrite /weights; elim: data w w' => [|y data IH] w w' ww' //= j.
by apply: IH => k; congr (_ * _); apply: eq_bigr => i _; rewrite ww'.
Qed.

Lemma forward_loop_cons (log_alpha : 'rV[R]_N.+1) y data :
  forward_loop G log_A etas log_alpha (y :: data) =
  (s <- logsumexp_axis0 (\matrix_(i, j) (log_alpha ord0 i + log_A i j)) ;;
   ll <- log_likelihoods G y etas ;;
   forward_loop G log_A etas (s + ll) data).
Proof. by []. Qed.

Lemma forward_loop_weights (log_alpha : 'rV[R]_N.+1) data :
  exists2 log_alpha',
    forward_loop G log_A etas log_alpha data = Ok log_alpha' &
    forall j, exp (log_alpha' ord0 j)
              = weights (fun i => exp (log_alpha ord0 i)) data j.
Proof.
elim: data log_alpha => [|y data IH] log_alpha; first by exists log_alpha.
rewrite forward_loop_cons logsumexp_axis0_ln log_likelihoods_bound /=.
set next := (_ + _); case: (IH next) => log_alpha' -> exp_alpha'.
exists log_alpha' => // j; rewrite exp_alpha'.
apply: forward_weights_ext => k; rewrite /next !mxE exp_plus exp_ln.
  exact: sum_ord_exp_pos.
by congr (_ * _); apply: eq_bigr => i _; rewrite mxE exp_plus.
Qed.

Lemma tail_weight_nil z : tail z [::] = 1.
Proof. by rewrite /tail /tail_weight /= big_seq1. Qed.

Lemma tail_weight_cons z y data :
  tail z (y :: data)
    = \sum_z' exp (log_A z z') * emission stat etas y z' * tail z' data.
Proof.
rewrite /tail /tail_weight /= big_allpairs_dep /= big_enum /=.
by apply: eq_bigr => z' _; rewrite mulr_sumr.
Qed.

Lemma forward_weights_tail (w : 'I_N.+1 -> R) data :
  \sum_j weights w data j = \sum_i w i * tail i data.
Proof.
elim: data w => [|y data IH] w.
  by apply: eq_bigr => i _; rewrite tail_weight_nil mulr1.
rewrite /weights /= -/weights IH.
under [RHS]eq_bigr do rewrite tail_weight_cons mulr_sumr.
rewrite exchange_big /=; apply: eq_bigr => j _.
rewrite -mulrA mulr_suml; apply: eq_bigr => i _.
by rewrite !mulrA.
Qed.

End Forward.

Section PathSums.

Variable obs : ExpFam.type.
Variable G : globals obs.
Variable stat : ExpFam.obs_t obs -> ExpFam.eta_t obs.
Hypothesis statistic_bound : g_statistic G = Some stat.

Variable N : nat.
Variable log_pi : 'rV[R]_N.+1.
Variable log_A : 'M[R]_N.+1.
Variable etas : N.+1.-tuple (ExpFam.eta_t obs * R).

(** What the forward recursion returns, by first state. *)

Lemma hmm_forward_sum (data : seq (ExpFam.obs_t obs)) :
  hmm_log_partition_function G (log_pi, log_A, etas) data
    = Ok (ln (\sum_z exp (log_pi ord0 z)
                     * tail_weight stat log_A etas z data)).
Proof.
rewrite /hmm_log_partition_function.
case: (forward_loop_weights statistic_bound log_A etas log_pi data).
move=> log_alpha -> exp_alpha /=; rewrite logsumexp_1d_ln.
rewrite -forward_weights_tail; congr (Ok (ln _)).
by apply: eq_bigr => j _.
Qed.

Lemma joint_weight_sum (data : seq (ExpFam.obs_t obs)) :
  \sum_(p <- paths N.+1 (size data).+1)
     joint_weight stat log_pi log_A etas p data
  = \sum_z exp (log_pi ord0 z) * tail_weight stat log_A etas z data.
Proof.
rewrite /= big_allpairs_dep /= big_enum /=.
by apply: eq_bigr => z _; rewrite mulr_sumr.
Qed.

End PathSums.

Lemma size_paths (N T : nat) : size (paths N T) = (N ^ T)%N.
Proof.
elim: T => [|T IH] //=.
by rewrite size_allpairs size_enum_ord IH expnS.
Qed.

(** C1 (amended).  With the name [statistic] bound and at least one state,
    [hmm_log_partition_function] returns the logarithm of the sum of the
    joint weights of the [N ^ (T + 1)] paths [z_0 .. z_T], where [z_0] is
    drawn from [pi] and emits nothing and every observation follows a
    transition. *)
Theorem hmm_log_partition_paths (obs : ExpFam.type) (G : globals obs)
    (stat : ExpFam.obs_t obs -> ExpFam.eta_t obs) (N : nat)
    (log_pi : 'rV[R]_N) (log_A : 'M[R]_N)
    (etas : N.-tuple (ExpFam.eta_t obs * R))
    (data : seq (ExpFam.obs_t obs)) :
  g_statistic G = Some stat -> (0 < N)%N ->
  hmm_log_partition_function G (log_pi, log_A, etas) data
    = Ok (ln (\sum_(p <- paths N (size data).+1)
                 joint_weight stat log_pi log_A etas p data)) /\
  size (paths N (size data).+1) = (N ^ (size data).+1)%N.
Proof.
move=> statistic_bound; case: N log_pi log_A etas => // N log_pi log_A etas _.
by rewrite size_paths joint_weight_sum (hmm_forward_sum statistic_bound).
Qed.

Lemma hmm_log_partition_paths_witness :
  hmm_log_partition_function gaussian_globals
    (log_pi_example, log_A_example, etas_example) [:: y_example]
    = Ok (ln (\sum_(p <- paths 2 2)
                 joint_weight (@ExpFam.statistic (Gaussian.family 1))
                   log_pi_example log_A_example etas_example p
                   [:: y_example])) /\
  size (paths 2 2) = 4.
Proof.
exact: (@hmm_log_partition_paths (Gaussian.family 1) gaussian_globals
          (@ExpFam.statistic (Gaussian.family 1)) 2 log_pi_example
          log_A_example etas_example [:: y_example] (erefl _) (erefl true)).
Defined.

(** ** The two-state example *)

Section Example.

Local Notation stat := (@ExpFam.statistic (Gaussian.family 1)).
Local Notation e := (emission stat etas_example y_example).

Lemma contract_zero_r (m n : nat) (x : 'M[R]_(m, n)) : contract x 0 = 0.
Proof.
rewrite /contract /contract_ndarray.
by apply: big1 => i _; apply: big1 => j _; rewrite mxE mulr0.
Qed.

Lemma Gaussian_inner (D : nat) (a b : 'M[R]_D * 'cV[R]_D) :
  @inner _ (@ExpFam.eta_inner (Gaussian.family D)) a b
    = 0 + contract a.1 b.1 + contract a.2 b.2.
Proof. by []. Qed.

Lemma natparam_inner (obs : ExpFam.type) (a b : ExpFam.eta_t obs * R) :
  inner a b = inner a.1 b.1 + a.2 * b.2.
Proof. by []. Qed.

Lemma stat_example : stat y_example = (0, 0).
Proof. by rewrite /stat /= /Gaussian.statistic /np_outer /y_example mul0mx. Qed.

Lemma emission_example0 : e ord0 = 1%Re.
Proof.
rewrite /e /emission stat_example natparam_inner Gaussian_inner /=.
rewrite !contract_zero_r -exp_0; congr exp.
by to_R; Lra.lra.
Qed.

Lemma emission_example1 : e (lift ord0 ord0) = exp (1 / 2).
Proof.
rewrite /e /emission stat_example natparam_inner Gaussian_inner /=.
rewrite !contract_zero_r; congr exp.
by to_R; Lra.lra.
Qed.

Lemma exp_log_pi_example0 : exp (log_pi_example ord0 ord0) = (3 / 4)%Re.
Proof. by rewrite mxE /= exp_ln //; Lra.lra. Qed.

Lemma exp_log_pi_example1 :
  exp (log_pi_example ord0 (lift ord0 ord0)) = (1 / 4)%Re.
Proof. by rewrite mxE /= exp_ln //; Lra.lra. Qed.

Lemma exp_log_A_example i j : exp (log_A_example i j) = (1 / 2)%Re.
Proof. by rewrite mxE exp_ln //; Lra.lra. Qed.

Lemma hmm_example_value :
  hmm_log_partition_function gaussian_globals
    (log_pi_example, log_A_example, etas_example) [:: y_example]
  = Ok (ln (1 / 2 + 1 / 2 * exp (1 / 2))%Re).
Proof.
rewrite (@hmm_forward_sum _ _ stat) //; congr (Ok (ln _)).
rewrite !big_ord_recl big_ord0 !tail_weight_cons !big_ord_recl !big_ord0.
rewrite !tail_weight_nil -/e emission_example0 emission_example1.
rewrite !exp_log_A_example exp_log_pi_example0 exp_log_pi_example1.
by to_R; Lra.lra.
Qed.

Lemma brute_force_example :
  brute_force stat log_pi_example log_A_example etas_example [:: y_example]
  = (3 / 4 + 1 / 4 * exp (1 / 2))%Re.
Proof.
rewrite /brute_force [size _]/=.
have -> : paths 2 1 = [seq z :: p | z <- enum 'I_2, p <- paths 2 0] by [].
rewrite big_allpairs_dep big_enum /=.
rewrite !big_ord_recl big_ord0 !big_seq1 /hmm_joint /=.
rewrite -/e emission_example0 emission_example1.
rewrite exp_log_pi_example0 exp_log_pi_example1.
by to_R; Lra.lra.
Qed.

End Example.

(** C1 as stated fails.  In the two-state example, with [statistic] bound,
    the sum over the paths with one state per observation, the first of
    them drawn from [pi], is [3/4 + 1/4 e^(1/2)]; the code returns the
    logarithm of [1/2 + 1/2 e^(1/2)]. *)
Lemma hmm_is_not_brute_force :
  hmm_log_partition_function gaussian_globals
    (log_pi_example, log_A_example, etas_example) [:: y_example]
  <> Ok (ln (brute_force (@ExpFam.statistic (Gaussian.family 1))
               log_pi_example log_A_example etas_example [:: y_example])).
Proof.
rewrite hmm_example_value brute_force_example => -[].
have e_gt1 : (1 < exp (1 / 2))%Re.
  by have := exp_increasing 0 (1 / 2); rewrite exp_0 => H; apply: H; Lra.lra.
by move/ln_inv; Lra.lra.
Qed.

(** ** fixed_point *)

Ltac solve_Rabs :=
  unfold Rabs; repeat (destruct Rcase_abs); intros; Lra.lra.

Lemma iscloseP (a b : R) :
  reflect (Rabs (a - b) <= atol + rtol * Rabs b)%Re (isclose a b).
Proof. by rewrite /isclose; case: Rle_dec => h; constructor. Qed.

Lemma allclose11 (a b : 'M[R]_1) :
  allclose a b = isclose (a ord0 ord0) (b ord0 ord0).
Proof.
apply/forallP/idP => [/(_ ord0) /forallP /(_ ord0) //|close i].
by apply/forallP => j; rewrite !ord1.
Qed.

Section FixedPointSpec.

Context {X : Type} {sX : Same X}.
Variable f : X -> result X.

Lemma fixed_point_loop_returns (fuel : nat) (x0 x1 r : X) :
  f x0 = Ok x1 -> fixed_point_loop f fuel x0 x1 = Some (Ok r) ->
  exists2 x, f x = Ok r & same x r.
Proof.
elim: fuel x0 x1 => [|fuel IH] x0 x1 fx0 /=.
  by case: ifP => // same01 [<-]; exists x0.
case: ifP => [same01 [<-]|_]; first by exists x0.
by case fx1: (f x1) => [x2|e] //; apply: IH fx1.
Qed.

End FixedPointSpec.

(** X19.  When [fixed_point(f, x0)] returns [r], then [r] is the image
    [f(x)] of the last iterate [x] that the loop tested, and [same(x, r)]
    holds: the last update moved the iterate by less than the tolerance.
    The loop does not evaluate [f(r)]. *)
Theorem fixed_point_returns (X : Type) (sX : Same X) (f : X -> result X)
    (fuel : nat) (x0 r : X) :
  fixed_point f fuel x0 = Some (Ok r) ->
  exists2 x, f x = Ok r & same x r.
Proof.
rewrite /fixed_point; case fx0: (f x0) => [x1|e] //.
exact: fixed_point_loop_returns fx0.
Qed.

(** [EM] is this driver run on [EM_update]. *)
Lemma EM_returns_image (obs : ExpFam.type) (G : globals obs) (N : nat)
    gradient (fuel : nat) (init_params r : param_tuple obs N)
    (data : seq (ExpFam.obs_t obs)) :
  EM G gradient fuel init_params data = Some (Ok r) ->
  exists2 params, EM_update G gradient data params = Ok r & same params r.
Proof.
rewrite /EM /fixed_point; case update0: (EM_update _ _ _ _) => [x1|e] //.
exact: fixed_point_loop_returns update0.
Qed.

Lemma drift_run : fixed_point drift 3 drift_start = Some (Ok drift_stop).
Proof.
have fx0 : drift drift_start = Ok drift_stop.
  rewrite /drift; congr Ok; apply/matrixP => i j; rewrite !mxE.
  by to_R; Lra.lra.
rewrite /fixed_point fx0 /= /same /same_ndarray allclose11 !mxE.
have -> // : isclose 0 (1 / 1000000000).
by apply/iscloseP; rewrite /atol /rtol; solve_Rabs.
Qed.

Lemma fixed_point_returns_witness :
  exists2 x, drift x = Ok drift_stop & same x drift_stop.
Proof. exact: (@fixed_point_returns _ _ drift 3 drift_start _ drift_run). Defined.

(** The driver alone does not make its result a fixed point: started
    from [(0)] on the update [x -> 100 x + 1e-9], the loop stops after one
    update and returns [(1e-9)], which the update sends to [(1.01e-7)],
    farther from it than the tolerance of [same]. *)
Lemma fixed_point_not_a_fixed_point :
  fixed_point drift 3 drift_start = Some (Ok drift_stop) /\
  (r' <- drift drift_stop ;; Ok (same r' drift_stop)) = Ok false.
Proof.
split; first exact: drift_run.
rewrite /drift /= /same /same_ndarray allclose11 !mxE; congr Ok.
apply/negbTE/negP => /iscloseP; rewrite /atol /rtol; to_R.
by solve_Rabs.
Qed.

(** ** EM in the module as it is written *)

Lemma tmapM_ok (A B : Type) (f : A -> result B) (n : nat) (t : n.-tuple A) :
  (forall i, exists y, f (tnth t i) = Ok y) -> exists ys, tmapM f t = Ok ys.
Proof.
elim: n t => [|n IH] t f_ok /=; first by eexists.
have [y] := f_ok ord0; rewrite -[tnth t ord0]/(thead t) => -> /=.
case: (IH (behead_tuple t)) => [i|ys -> /=]; last by eexists.
by have := f_ok (lift ord0 i); rewrite tnth_behead.
Qed.

Lemma Gaussian_logZ_ok (D : nat) (mu : 'cV[R]_D) (Sigma : 'M[R]_D) :
  Sigma \in unitmx ->
  exists z, Gaussian.logZ ((- 1 / 2)%Re *: invmx Sigma, invmx Sigma *m mu)
            = Ok z.
Proof.
move=> S_unit; rewrite /Gaussian.logZ /=.
have -> : (- 2)%Re *: ((- 1 / 2)%Re *: invmx Sigma) = invmx Sigma.
  rewrite scalerA; have -> : (- 2)%Re * (- 1 / 2)%Re = 1 by to_R; Lra.lra.
  by rewrite scale1r.
by rewrite /linalg_solve unitmx_inv S_unit /=; eexists.
Qed.

Lemma Gaussian_natparam_ok (D : nat) (mu : 'cV[R]_D) (Sigma : 'M[R]_D) :
  Sigma \in unitmx ->
  exists e, obs_natparam (obs:=Gaussian.family D) (mu, Sigma) = Ok e.
Proof.
move=> S_unit; rewrite /obs_natparam /= Gaussian_eta_unit //=.
by case: (Gaussian_logZ_ok mu S_unit) => z -> /=; eexists.
Qed.

(** The natural parameters of the two-state example are those that
    [E_step] builds from its parameters. *)

Lemma Gaussian_natparam_example (mu : 'cV[R]_1) :
  obs_natparam (obs:=Gaussian.family 1) (mu, Sigma_one)
    = Ok (((- 1 / 2)%Re%:M, mu), (1 / 2 * np_dot mu mu)%Re).
Proof.
have S_unit : Sigma_one \in unitmx by rewrite unitmx1.
have det_pos : (0 < \det Sigma_one)%Re by rewrite det1; to_R; Lra.lra.
have := Gaussian_logZ_eta_value mu S_unit det_pos.
rewrite /obs_natparam /Gaussian_logZ_eta /= Gaussian_eta_unit //= => -> /=.
rewrite /Sigma_one invmx1 mul1mx scalemx1 det1 ln_1; congr (Ok (_, _)).
by move: (np_dot _ _) => d; to_R; Lra.lra.
Qed.

Lemma natural_params_example :
  tmapM (obs_natparam (obs:=Gaussian.family 1)) thetas_example
    = Ok etas_example /\
  map_mx np_log pi_example = log_pi_example /\
  map_mx np_log A_example = log_A_example.
Proof.
split; last first.
  split; apply/matrixP => i j; rewrite !mxE //.
  by case: (j == ord0).
rewrite /= /thead !(tnth_nth (0, Sigma_one)) /= !Gaussian_natparam_example /=.
congr Ok; apply: val_inj => /=.
have -> : np_dot (0 : 'cV[R]_1) 0 = 0 by apply: big1 => i _; rewrite mxE mul0r.
have -> : np_dot mu_one mu_one = 1.
  by rewrite /np_dot big_ord_recl big_ord0 !mxE; to_R; Lra.lra.
by congr [:: (_, _); (_, _)]; to_R; Lra.lra.
Qed.

Lemma thetas_example_ok (i : 'I_2) :
  exists e,
    obs_natparam (obs:=Gaussian.family 1) (tnth thetas_example i) = Ok e.
Proof.
rewrite (tnth_nth (0, Sigma_one)).
by case: i => [[|[|i]]] //= _; rewrite Gaussian_natparam_example; eexists.
Qed.

Lemma tmapM_first_raise (A B : Type) (f : A -> result B) (n : nat)
    (t : n.-tuple A) (i : 'I_n) (e : exn) :
  (forall j : 'I_n, (j < i)%N -> exists y, f (tnth t j) = Ok y) ->
  f (tnth t i) = Raise e -> tmapM f t = Raise e.
Proof.
elim: n t i => [|n IH] t i; first by case: i.
rewrite /= -[thead t]/(tnth t ord0).
case: (unliftP ord0 i) => [j ->|->] before fi; last by rewrite fi.
have [y -> /=] := before ord0 (ltn0Sn j).
have shift (k : 'I_n) : tnth t (lift ord0 k) = tnth (behead_tuple t) k.
  rewrite tnth_behead; congr (tnth t _).
  by apply: val_inj; rewrite /= inordK ?ltnS.
rewrite (IH (behead_tuple t) j) // -?shift // => k k_lt_j.
by rewrite -shift; apply: before.
Qed.

Lemma obs_natparam_raise (obs : ExpFam.type) (theta : ExpFam.theta obs)
    (e : exn) :
  ExpFam.eta theta = Raise e \/
  (exists2 n, ExpFam.eta theta = Ok n & ExpFam.logZ n = Raise e) ->
  obs_natparam theta = Raise e.
Proof. by rewrite /obs_natparam; case=> [->|[n -> /= ->]]. Qed.

(** C3 (amended).  In the module as it is written [EM] returns no
    parameter tuple: its first update raises, whatever the input.  When
    there is at least one state and [obs.eta] and [obs.logZ] succeed on
    every [theta], the exception is a [NameError]: of [statistic] when
    there is an observation, of [max_likelihood] when there is none.  When
    [obs.eta] or [obs.logZ] raises on some [theta], the exception that
    [EM] raises is that of the first such [theta]: it is raised while
    [E_step] builds the natural parameters, before any free name is looked
    up. *)
Theorem EM_raises (obs : ExpFam.type) (N : nat) gradient (fuel : nat)
    (init_params : param_tuple obs N) (data : seq (ExpFam.obs_t obs)) :
  (exists e, EM (module_globals obs) gradient fuel init_params data
             = Some (Raise e)) /\
  ((0 < N)%N ->
   (forall i, exists e,
      obs_natparam (obs:=obs) (tnth init_params.2 i) = Ok e) ->
   EM (module_globals obs) gradient fuel init_params data
     = Some (Raise (NameError (first_unbound data)))) /\
  (forall (i : 'I_N) (e : exn),
   (forall j : 'I_N, (j < i)%N ->
      exists n, obs_natparam (obs:=obs) (tnth init_params.2 j) = Ok n) ->
   ExpFam.eta (tnth init_params.2 i) = Raise e \/
   (exists2 n, ExpFam.eta (tnth init_params.2 i) = Ok n
             & ExpFam.logZ n = Raise e) ->
   EM (module_globals obs) gradient fuel init_params data
     = Some (Raise e)).
Proof.
rewrite /EM /fixed_point EM_update_module; split.
  case: (tmapM _ _) => [etas|e]; last by exists e.
  by case: N init_params gradient etas => [|N] *; eexists.
split; first by case: N init_params gradient => // N p g _ /tmapM_ok [etas ->].
move=> i e before /obs_natparam_raise raised.
by rewrite (tmapM_first_raise before raised).
Qed.

Lemma EM_raises_witness :
  EM (module_globals (Gaussian.family 1)) (@unused_gradient _ 2) 5
    params_example [:: y_example]
  = Some (Raise (NameError "statistic")) /\
  EM (module_globals (Gaussian.family 1)) (@unused_gradient _ 1) 5
    params_singular [:: y_example]
  = Some (Raise LinAlgError).
Proof.
split.
  exact: (proj1 (proj2 (EM_raises (@unused_gradient _ 2) 5 params_example
                          [:: y_example])) (erefl true) thetas_example_ok).
apply: (proj2 (proj2 (EM_raises (@unused_gradient _ 1) 5 params_singular
                        [:: y_example])) ord0 LinAlgError) => [[j j_lt] //|].
left; rewrite (tnth_nth (mu_one, Sigma_zero)) /=.
by apply: Gaussian_eta_singular; apply/invertibleP/Sigma_zero_singular.
Defined.

(** C3 as stated fails: with a singular covariance the exception is that
    of [np.linalg.inv], raised while the natural parameters are built. *)
Lemma EM_singular_covariance :
  EM (module_globals (Gaussian.family 1)) (@unused_gradient _ 1) 5
    params_singular [:: y_example]
  = Some (Raise LinAlgError).
Proof.
rewrite /EM /fixed_point EM_update_module /= /obs_natparam /=.
by rewrite Gaussian_eta_singular //; apply/invertibleP/Sigma_zero_singular.
Qed.


(** C2, the code's side.  With at least one observation, [E_step] in the
    module as it is written returns no gradient: the forward pass raises
    the [NameError] of [statistic]. *)
Theorem E_step_raises (obs : ExpFam.type) (N : nat) gradient
    (params : param_tuple obs N) (y : ExpFam.obs_t obs)
    (data : seq (ExpFam.obs_t obs)) :
  (0 < N)%N ->
  (forall i, exists e, obs_natparam (obs:=obs) (tnth params.2 i) = Ok e) ->
  E_step (module_globals obs) gradient params (y :: data)
    = Raise (NameError "statistic").
Proof.
case: N params gradient => // N [[pi A] thetas] gradient _ /tmapM_ok [etas].
by rewrite /E_step /= => -> /=; rewrite /grad hmm_raises_on_data.
Qed.

Lemma E_step_raises_witness :
  E_step (module_globals (Gaussian.family 1)) (@unused_gradient _ 2)
    params_example [:: y_example]
  = Raise (NameError "statistic").
Proof.
exact: (@E_step_raises (Gaussian.family 1) 2 (@unused_gradient _ 2)
          params_example y_example [::] (erefl true) thetas_example_ok).
Defined.

(** C9, the code's side.  With at least one observation,
    [hmm_log_partition_function] in the module as it is written returns no
    number, whatever the natural parameters: the first iteration of the
    loop raises the [NameError] of [statistic]. *)
Theorem hmm_raises_NameError (obs : ExpFam.type) (N : nat)
    (natural_params : natparam_tuple obs N) (y : ExpFam.obs_t obs)
    (data : seq (ExpFam.obs_t obs)) :
  (0 < N)%N ->
  hmm_log_partition_function (module_globals obs) natural_params (y :: data)
    = Raise (NameError "statistic").
Proof.
by case: N natural_params => // N np _; rewrite hmm_raises_on_data.
Qed.

Lemma hmm_raises_NameError_witness :
  hmm_log_partition_function (module_globals (Gaussian.family 1))
    (log_pi_example, log_A_example, etas_example) [:: y_example]
  = Raise (NameError "statistic").
Proof.
exact: (@hmm_raises_NameError (Gaussian.family 1) 2
          (log_pi_example, log_A_example, etas_example) y_example [::]
          (erefl true)).
Defined.

(** C10, the code's side.  In the module as it is written [EM_update]
    returns no parameter tuple, so that no iterate has a successor at which
    the likelihood could be compared. *)
Theorem EM_update_never_returns (obs : ExpFam.type) (N : nat) gradient
    (data : seq (ExpFam.obs_t obs)) (params params' : param_tuple obs N) :
  EM_update (module_globals obs) gradient data params <> Ok params'.
Proof.
rewrite EM_update_module; case: (tmapM _ _) => [etas|e] //.
by case: N params params' gradient etas.
Qed.

(** * Further properties of the utilities *)

(** ** normalize *)

Lemma sum_ge0 (I : Type) (r : seq I) (P : pred I) (F : I -> R) :
  (forall i, (0 <= F i)%Re) -> (0 <= \sum_(i <- r | P i) F i)%Re.
Proof.
move=> F_ge0; elim: r => [|j r IH]; first by rewrite big_nil; to_R; Lra.lra.
rewrite big_cons; case: (P j) => //.
by have := F_ge0 j; move: IH; to_R; Lra.lra.
Qed.

Lemma term_le_sum (n : nat) (F : 'I_n -> R) (j : 'I_n) :
  (forall i, (0 <= F i)%Re) -> (F j <= \sum_i F i)%Re.
Proof.
move=> F_ge0; rewrite (bigD1 j) //=.
have := sum_ge0 (index_enum 'I_n) (fun i => i != j) F_ge0.
by move: (\sum_(i < n | _) _) => s; to_R; Lra.lra.
Qed.

Lemma normalize_pos_row (m n : nat) (a : 'M[R]_(m, n)) (i : 'I_m) j :
  (0 < \sum_k a i k)%Re -> normalize a i j = a i j / \sum_k a i k.
Proof. by move=> s0; rewrite mxE replace_zeros_pos. Qed.

Lemma normalize_nonpos_row (m n : nat) (a : 'M[R]_(m, n)) (i : 'I_m) j :
  (\sum_k a i k <= 0)%Re -> normalize a i j = a i j.
Proof. by move=> s0; rewrite mxE replace_zeros_nonpos // divr1. Qed.

Lemma normalize_pos_sum (m n : nat) (a : 'M[R]_(m, n)) (i : 'I_m) :
  (0 < \sum_k a i k)%Re -> \sum_j normalize a i j = 1.
Proof.
move=> s0.
have -> : \sum_j normalize a i j = \sum_j a i j / \sum_k a i k.
  by apply: eq_bigr => j _; rewrite normalize_pos_row.
by rewrite -mulr_suml divff // Rpos_neq0.
Qed.

Lemma normalize_normalize (m n : nat) (a : 'M[R]_(m, n)) :
  normalize (normalize a) = normalize a.
Proof.
apply/matrixP => i j; rewrite [LHS]mxE.
case: (Rlt_dec 0 (\sum_k a i k)) => [s_pos|/Rnot_lt_le s_nonpos].
  rewrite normalize_pos_sum // replace_zeros_pos ?divr1 //.
  by to_R; Lra.lra.
have -> : \sum_k normalize a i k = \sum_k a i k.
  by apply: eq_bigr => k _; rewrite normalize_nonpos_row.
by rewrite replace_zeros_nonpos // divr1.
Qed.

(** X1.  [normalize] is idempotent, whatever the signs of the row sums of
    its input: applying it any number of times more leaves a normalized
    array as it is. *)
Theorem normalize_idempotent (m n : nat) (a : 'M[R]_(m, n)) (k : nat) :
  iter k.+1 normalize a = normalize a.
Proof. by elim: k => //= k ->; exact: normalize_normalize. Qed.

(** X2.  A row of non-negative entries whose sum is positive is turned
    into a probability vector: every entry of the normalized row lies
    between [0] and [1]. *)
Theorem normalize_probability (m n : nat) (a : 'M[R]_(m, n)) (i : 'I_m) :
  (forall j, (0 <= a i j)%Re) -> (0 < \sum_k a i k)%Re ->
  forall j, (0 <= normalize a i j <= 1)%Re.
Proof.
move=> a_ge0 s_pos j; rewrite normalize_pos_row //.
have s_n0 := Rpos_neq0 s_pos; rewrite RinvE //.
have := term_le_sum j a_ge0; have := a_ge0 j.
move: (\sum_k a i k) s_pos {s_n0} (a i j) => s s_pos x x_ge0 x_le_s.
have inv_pos := Rinv_0_lt_compat _ s_pos.
split; first by to_R; apply: Rmult_le_pos => //; Lra.lra.
have -> : 1%Re = (s * / s)%Re by rewrite Rinv_r //; Lra.lra.
by to_R; apply: Rmult_le_compat_r => //; Lra.lra.
Qed.

Lemma normalize_probability_witness :
  (0 <= normalize counts_example ord0 ord0 <= 1)%Re.
Proof.
apply: (@normalize_probability _ _ counts_example ord0).
  by move=> j; rewrite mxE /=; case: (j == ord0); Lra.lra.
by rewrite !big_ord_recl big_ord0 !mxE /=; to_R; Lra.lra.
Defined.

(** X3.  A row whose sum is positive is normalized to the same row after
    it has been scaled by a positive factor. *)
Theorem normalize_scale (m n : nat) (a : 'M[R]_(m, n)) (c : R) (i : 'I_m) :
  (0 < c)%Re -> (0 < \sum_k a i k)%Re ->
  forall j, normalize (c *: a) i j = normalize a i j.
Proof.
move=> c_pos s_pos j.
have sum_scaled : \sum_k (c *: a) i k = c * \sum_k a i k.
  by rewrite mulr_sumr; apply: eq_bigr => k _; rewrite mxE.
have cs_pos : (0 < \sum_k (c *: a) i k)%Re.
  by rewrite sum_scaled; apply: Rmult_lt_0_compat.
rewrite !normalize_pos_row // sum_scaled mxE.
have c_n0 := Rpos_neq0 c_pos; have s_n0 := Rpos_neq0 s_pos.
by rewrite invfM mulrACA divff // mul1r.
Qed.

Lemma normalize_scale_witness :
  normalize ((2%Re : R) *: counts_example) ord0 ord0
    = normalize counts_example ord0 ord0.
Proof.
apply: (@normalize_scale _ _ counts_example 2%Re ord0); first by Lra.lra.
by rewrite !big_ord_recl big_ord0 !mxE /=; to_R; Lra.lra.
Defined.

(** ** same *)

Lemma isclose_refl (a : R) : isclose a a.
Proof.
apply/iscloseP; rewrite /atol /rtol Rminus_diag Rabs_R0.
by have := Rabs_pos a; Lra.lra.
Qed.

Lemma allclose_refl (m n : nat) (a : 'M[R]_(m, n)) : allclose a a.
Proof. by apply/forallP => i; apply/forallP => j; exact: isclose_refl. Qed.

Lemma all2_refl (T : Type) (r : T -> T -> bool) (s : seq T) :
  (forall x, r x x) -> all2 r s s.
Proof. by move=> r_refl; elim: s => //= x s ->; rewrite r_refl. Qed.

(** X4.  [same] is reflexive on the parameter tuples of a Gaussian HMM:
    a tuple [(pi, A, thetas)] passes the test against itself. *)
Theorem same_params_refl (D N : nat) (p : param_tuple (Gaussian.family D) N) :
  same p p.
Proof.
case: p => [[pi A] thetas]; rewrite /same /same_pair /=.
rewrite /same /same_pair /= /same /same_ndarray !allclose_refl /=.
apply: all2_refl => -[mu Sigma]; rewrite /same /= /same_pair /=.
by rewrite /same /same_ndarray !allclose_refl.
Qed.

(** X5.  [same] is not symmetric: an entry [b] just above [atol] is close
    to [0] when [0] is the first argument, since the relative tolerance is
    taken on the second argument, and is not when [0] is the second. *)
Theorem same_asymmetric (b : R) :
  (atol < b)%Re -> (b <= atol + rtol * b)%Re ->
  same (const_mx 0%Re : 'M[R]_1) (const_mx b) /\
  ~~ same (const_mx b : 'M[R]_1) (const_mx 0%Re).
Proof.
move=> b_gt b_le; rewrite /same /same_ndarray !allclose11 !mxE.
have b_pos : (0 < b)%Re by move: b_gt; rewrite /atol; Lra.lra.
split; apply/iscloseP.
  by move: b_le; rewrite /atol /rtol; solve_Rabs.
by move: b_gt; rewrite /atol /rtol; solve_Rabs.
Qed.

Lemma same_asymmetric_witness :
  same (const_mx 0%Re : 'M[R]_1) (const_mx (1000005 / 100000000000000)%Re) /\
  ~~ same (const_mx (1000005 / 100000000000000)%Re : 'M[R]_1)
       (const_mx 0%Re).
Proof.
apply: (@same_asymmetric (1000005 / 100000000000000)%Re).
  by rewrite /atol; Lra.lra.
by rewrite /atol /rtol; Lra.lra.
Defined.

(** ** fixed_point *)

(** X6.  When the update sends its first image to itself, and [same]
    accepts that image against itself, [fixed_point] returns it: after one
    application if [same] accepts the start against it, after two
    otherwise. *)
Theorem fixed_point_idempotent (X : Type) (sX : Same X)
    (f : X -> result X) (fuel : nat) (x0 x1 : X) :
  f x0 = Ok x1 -> f x1 = Ok x1 -> same x1 x1 ->
  fixed_point f fuel.+1 x0 = Some (Ok x1).
Proof.
move=> fx0 fx1 same11; rewrite /fixed_point fx0 /=.
by case: ifP => // _; rewrite fx1 /=; case: fuel => [|fuel] /=; rewrite same11.
Qed.

(** The witness iterates [normalize], which is idempotent. *)
Lemma fixed_point_idempotent_witness :
  fixed_point (fun a => Ok (normalize a)) 1 counts_example
    = Some (Ok (normalize counts_example)).
Proof.
apply: (@fixed_point_idempotent _ _ (fun a => Ok (normalize a)) 0
          counts_example (normalize counts_example)) => //.
  by rewrite normalize_normalize.
exact: allclose_refl.
Defined.

(** * Further properties of the exponential families *)

(** ** inner and Gaussian.statistic *)

Lemma Gaussian_inner_quadratic (D : nat) (E : 'M[R]_D) (h y : 'cV[R]_D) :
  @inner _ (@ExpFam.eta_inner (Gaussian.family D)) (E, h)
    (Gaussian.statistic y)
  = np_dot y (E *m y) + np_dot h y.
Proof.
rewrite Gaussian_inner add0r /Gaussian.statistic /=; congr (_ + _).
  rewrite /contract /contract_ndarray /np_dot /np_outer.
  apply: eq_bigr => i _; rewrite mxE mulr_sumr; apply: eq_bigr => j _.
  by rewrite !mxE big_ord_recl big_ord0 addr0 !mxE mulrCA.
rewrite /contract /contract_ndarray /np_dot; apply: eq_bigr => i _.
by rewrite big_ord_recl big_ord0 addr0 !ord1.
Qed.

(** X7.  Paired with the sufficient statistic of an observation [y], a
    Gaussian natural-parameter pair [(E, h)] evaluates to the quadratic
    form [y^T E y + h^T y]. *)
Theorem Gaussian_inner_statistic (D : nat) (E : 'M[R]_D) (h y : 'cV[R]_D) :
  @inner _ (@ExpFam.eta_inner (Gaussian.family D)) (E, h)
    (Gaussian.statistic y)
  = np_dot y (E *m y) + np_dot h y.
Proof. exact: Gaussian_inner_quadratic. Qed.

(** ** Gaussian.eta and Gaussian.logZ *)

(** X8.  The parameters are recovered from the natural parameters that
    [Gaussian.eta] returns: [-2 * eta[0]] is the inverse of [Sigma], and
    solving it against [eta[1]], as [Gaussian.logZ] does, gives [mu]. *)
Theorem Gaussian_eta_roundtrip (D : nat) (mu : 'cV[R]_D) (Sigma : 'M[R]_D)
    (eta : 'M[R]_D * 'cV[R]_D) :
  Gaussian.eta (mu, Sigma) = Ok eta ->
  linalg_inv ((- 2)%Re *: eta.1) = Ok Sigma /\
  linalg_solve ((- 2)%Re *: eta.1) eta.2 = Ok mu.
Proof.
case: (boolP (Sigma \in unitmx)) => [S_unit|S_sing]; last first.
  by rewrite Gaussian_eta_singular.
rewrite Gaussian_eta_unit // => -[<-] /=.
have -> : (- 2)%Re *: ((- 1 / 2)%Re *: invmx Sigma) = invmx Sigma.
  rewrite scalerA; have -> : (- 2)%Re * (- 1 / 2)%Re = 1 by to_R; Lra.lra.
  by rewrite scale1r.
by rewrite /linalg_inv /linalg_solve unitmx_inv S_unit invmxK mulKVmx.
Qed.

Lemma Gaussian_eta_roundtrip_witness :
  linalg_inv ((- 2)%Re *: ((- 1 / 2)%Re *: invmx Sigma_one)) = Ok Sigma_one /\
  linalg_solve ((- 2)%Re *: ((- 1 / 2)%Re *: invmx Sigma_one))
    (invmx Sigma_one *m mu_one) = Ok mu_one.
Proof.
apply: (@Gaussian_eta_roundtrip 1 mu_one Sigma_one
          ((- 1 / 2)%Re *: invmx Sigma_one, invmx Sigma_one *m mu_one)).
by apply: Gaussian_eta_unit; rewrite unitmx1.
Defined.

(** X9.  [Gaussian.logZ] raises nothing on the natural parameters that
    [Gaussian.eta] returns: the matrix it solves against is the inverse of
    the covariance, which is invertible. *)
Theorem Gaussian_logZ_after_eta (D : nat) (theta : 'cV[R]_D * 'M[R]_D)
    (eta : 'M[R]_D * 'cV[R]_D) :
  Gaussian.eta theta = Ok eta -> exists z, Gaussian.logZ eta = Ok z.
Proof.
case: theta => mu Sigma.
case: (boolP (Sigma \in unitmx)) => [S_unit|S_sing]; last first.
  by rewrite Gaussian_eta_singular.
by rewrite Gaussian_eta_unit // => -[<-]; exact: Gaussian_logZ_ok.
Qed.

Lemma Gaussian_logZ_after_eta_witness :
  exists z,
    Gaussian.logZ ((- 1 / 2)%Re *: invmx Sigma_one, invmx Sigma_one *m mu_one)
    = Ok z.
Proof.
apply: (@Gaussian_logZ_after_eta 1 (mu_one, Sigma_one)).
by apply: Gaussian_eta_unit; rewrite unitmx1.
Defined.

(** ** NormalInverseWishart.statistic *)

(** X10.  [NormalInverseWishart.statistic], entered with [y] bound to
    [(mu, Sigma)], returns exactly when [Sigma] is invertible, and
    otherwise raises the error of [np.linalg.inv]; [Gaussian.logZ] adds no
    failure of its own.  On a
    covariance of positive determinant it returns the natural parameters
    [(-1/2 Sigma^-1, Sigma^-1 mu)] followed by
    [1/2 log|Sigma| + 1/2 mu^T Sigma^-1 mu]. *)
Theorem NIW_statistic_spec (D : nat) (mu : 'cV[R]_D) (Sigma : 'M[R]_D) :
  (invertible Sigma ->
   exists s, NormalInverseWishart.statistic (mu, Sigma) = Ok s) /\
  (~ invertible Sigma ->
   NormalInverseWishart.statistic (mu, Sigma) = Raise LinAlgError) /\
  ((0 < \det Sigma)%Re ->
   NormalInverseWishart.statistic (mu, Sigma)
   = Ok (((- 1 / 2)%Re *: invmx Sigma, invmx Sigma *m mu),
         (1 / 2 * ln (\det Sigma)
          + 1 / 2 * np_dot mu (invmx Sigma *m mu))%Re)).
Proof.
rewrite /NormalInverseWishart.statistic; split=> [/invertibleP S_unit|].
  rewrite Gaussian_eta_unit //=.
  by case: (Gaussian_logZ_ok mu S_unit) => z -> /=; eexists.
split=> [S_sing|det_pos].
  by rewrite Gaussian_eta_singular //; apply/negP => /invertibleP.
have S_unit : Sigma \in unitmx by rewrite unitmxE unitfE; exact: Rpos_neq0.
have := Gaussian_logZ_eta_value mu S_unit det_pos.
rewrite /Gaussian_logZ_eta Gaussian_eta_unit //= => -> /=.
by congr (Ok (_, _)); move: (ln _) (np_dot _ _) => a b; to_R; Lra.lra.
Qed.

Lemma NIW_statistic_spec_witness :
  (exists s, NormalInverseWishart.statistic (mu_one, Sigma_one) = Ok s) /\
  NormalInverseWishart.statistic (mu_one, Sigma_zero) = Raise LinAlgError /\
  NormalInverseWishart.statistic (mu_one, Sigma_one)
  = Ok (((- 1 / 2)%Re *: invmx Sigma_one, invmx Sigma_one *m mu_one),
        (1 / 2 * ln (\det Sigma_one)
         + 1 / 2 * np_dot mu_one (invmx Sigma_one *m mu_one))%Re).
Proof.
split.
  exact: (proj1 (NIW_statistic_spec mu_one Sigma_one) Sigma_one_invertible).
split.
  exact: (proj1 (proj2 (NIW_statistic_spec mu_one Sigma_zero))
            Sigma_zero_singular).
apply: (proj2 (proj2 (NIW_statistic_spec mu_one Sigma_one))).
by rewrite det1; to_R; Lra.lra.
Defined.

(** * Further properties of the HMM and of EM *)

(** ** The exceptions of hmm_log_partition_function *)

Section HmmExceptions.

Variable obs : ExpFam.type.
Variable G : globals obs.

Lemma hmm_unbound_statistic (N : nat) (np : natparam_tuple obs N.+1)
    (y : ExpFam.obs_t obs) (data : seq (ExpFam.obs_t obs)) :
  g_statistic G = None ->
  hmm_log_partition_function G np (y :: data)
    = Raise (NameError "statistic").
Proof.
case: np => [[log_pi log_A] etas] unbound.
rewrite /hmm_log_partition_function forward_loop_cons logsumexp_axis0_ln /=.
by rewrite /log_likelihoods unbound.
Qed.

Lemma hmm_bound_statistic (N : nat) (np : natparam_tuple obs N.+1)
    (stat : ExpFam.obs_t obs -> ExpFam.eta_t obs)
    (data : seq (ExpFam.obs_t obs)) :
  g_statistic G = Some stat ->
  exists v, hmm_log_partition_function G np data = Ok v.
Proof.
by case: np => [[log_pi log_A] etas] bound; rewrite (hmm_forward_sum bound); eexists.
Qed.

Lemma hmm_no_data_ok (N : nat) (np : natparam_tuple obs N.+1) :
  exists v, hmm_log_partition_function G np [::] = Ok v.
Proof. by rewrite hmm_no_data logsumexp_1d_ln; eexists. Qed.


End HmmExceptions.

(** X11.  [hmm_log_partition_function] raises in two situations only:
    when there is no state, where the reduction of [logsumexp] is empty,
    and when there is an observation while the name [statistic] is
    unbound.  In every other case, the function bound to [statistic]
    returning on every observation, it returns a number. *)
Theorem hmm_raises_iff (obs : ExpFam.type) (G : globals obs) (N : nat)
    (natural_params : natparam_tuple obs N)
    (data : seq (ExpFam.obs_t obs)) :
  (exists e, hmm_log_partition_function G natural_params data = Raise e) <->
  N = 0 \/ (data <> [::] /\ g_statistic G = None).
Proof.
case: N natural_params => [|N] np.
  by rewrite hmm_no_state; split=> _; [left | exists ValueError].
case bound: (g_statistic G) => [stat|].
  case: (hmm_bound_statistic np data bound) => v ->.
  by split=> [[e]|[|[]]].
case: data => [|y data].
  case: (hmm_no_data_ok G np) => v ->.
  by split=> [[e]|[|[]]].
rewrite hmm_unbound_statistic //; split=> _; last by eexists.
by right.
Qed.

Lemma hmm_raises_iff_witness :
  exists e,
    hmm_log_partition_function (module_globals (Gaussian.family 1))
      (log_pi_example, log_A_example, etas_example) [:: y_example] = Raise e.
Proof. by apply/hmm_raises_iff; right. Defined.

(** ** E_step on a Gaussian family *)





(** ** M_step *)

(** X13.  Whenever [M_step] returns, its [pi] sums to [1] if the expected
    initial counts have a positive sum, and every row of its [A] whose
    expected transition counts have a positive sum sums to [1]. *)
Theorem M_step_stochastic (obs : ExpFam.type) (G : globals obs) (N : nat)
    (expected_stats : natparam_tuple obs N) (params : param_tuple obs N) :
  M_step G expected_stats = Ok params ->
  ((0 < \sum_j expected_stats.1.1 ord0 j)%Re ->
   \sum_j params.1.1 ord0 j = 1) /\
  (forall i, (0 < \sum_j expected_stats.1.2 i j)%Re ->
             \sum_j params.1.2 i j = 1).
Proof.
case: expected_stats => [[E_init E_trans] E_obs]; rewrite /M_step.
case: (lookup _ _) => [ml|e] //=; case: (tmapM _ _) => [thetas|e] //= -[<-] /=.
by split=> [|i]; exact: normalize_pos_sum.
Qed.

Lemma M_step_stochastic_witness :
  exists params, M_step bound_globals stats_example = Ok params /\
    \sum_j params.1.1 ord0 j = 1 /\ \sum_j params.1.2 ord0 j = 1.
Proof.
move: (@M_step_stochastic _ bound_globals 1 stats_example).
rewrite /M_step /stats_example /= => stochastic.
eexists; split; first by reflexivity.
have [sum_pi sum_A] := stochastic _ erefl.
split; first by apply: sum_pi; rewrite big_ord_recl big_ord0 !mxE; to_R; Lra.lra.
by apply: sum_A; rewrite big_ord_recl big_ord0 !mxE; to_R; Lra.lra.
Defined.

(** ** hmm_log_partition_function *)

(** X14.  Without observations [hmm_log_partition_function] returns the
    logarithm of the total initial mass, whatever the bindings of the free
    names: for the logarithm of a distribution [pi] of positive entries
    that is [0]. *)
Theorem hmm_no_data_normalized (obs : ExpFam.type) (G : globals obs)
    (N : nat) (pi : 'rV[R]_N) (log_A : 'M[R]_N)
    (etas : N.-tuple (ExpFam.eta_t obs * R)) :
  (forall i, (0 < pi ord0 i)%Re) -> \sum_i pi ord0 i = 1 ->
  hmm_log_partition_function G (map_mx np_log pi, log_A, etas) [::] = Ok 0.
Proof.
case: N pi log_A etas => [|N] pi log_A etas pi_pos pi_sum.
  by move: pi_sum; rewrite big_ord0 => /esym/eqP; rewrite oner_eq0.
rewrite hmm_no_data logsumexp_1d_ln /=; congr Ok.
have -> : \sum_j exp ((map_mx np_log pi) ord0 j) = 1.
  by rewrite -pi_sum; apply: eq_bigr => j _; rewrite mxE /np_log exp_ln.
exact: ln_1.
Qed.

Lemma hmm_no_data_normalized_witness :
  hmm_log_partition_function (module_globals (Gaussian.family 1))
    (map_mx np_log pi_example, log_A_example, etas_example) [::] = Ok 0.
Proof.
apply: hmm_no_data_normalized.
  by move=> i; rewrite mxE; case: (i == ord0); Lra.lra.
by rewrite !big_ord_recl big_ord0 !mxE /=; to_R; Lra.lra.
Defined.

Lemma chain_weight_pos (obs : ExpFam.type) (N : nat)
    (stat : ExpFam.obs_t obs -> ExpFam.eta_t obs) (log_A : 'M[R]_N)
    (etas : N.-tuple (ExpFam.eta_t obs * R)) (z : 'I_N) (p : seq 'I_N)
    (data : seq (ExpFam.obs_t obs)) :
  (0 < chain_weight stat log_A etas z p data)%Re.
Proof.
elim: p z data => [|z' p IH] z [|y data] /=; try exact: Rlt_0_1.
apply: Rmult_lt_0_compat; last exact: IH.
by apply: Rmult_lt_0_compat; exact: exp_pos.
Qed.

Lemma joint_weight_pos (obs : ExpFam.type) (N : nat)
    (stat : ExpFam.obs_t obs -> ExpFam.eta_t obs) (log_pi : 'rV[R]_N)
    (log_A : 'M[R]_N) (etas : N.-tuple (ExpFam.eta_t obs * R)) (z : 'I_N)
    (p : seq 'I_N) (data : seq (ExpFam.obs_t obs)) :
  (0 < joint_weight stat log_pi log_A etas (z :: p) data)%Re.
Proof.
by apply: Rmult_lt_0_compat; [exact: exp_pos | exact: chain_weight_pos].
Qed.

Lemma tail_weight_pos (obs : ExpFam.type) (N : nat)
    (stat : ExpFam.obs_t obs -> ExpFam.eta_t obs) (log_A : 'M[R]_N.+1)
    (etas : N.+1.-tuple (ExpFam.eta_t obs * R)) (z : 'I_N.+1)
    (data : seq (ExpFam.obs_t obs)) :
  (0 < tail_weight stat log_A etas z data)%Re.
Proof.
rewrite /tail_weight; apply: sum_pos; last by move=> p; exact: chain_weight_pos.
by move=> /(congr1 size)/eqP; rewrite size_paths expn_eq0.
Qed.

Lemma mem_paths (N T : nat) (p : seq 'I_N) : size p = T -> p \in paths N T.
Proof.
elim: T p => [|T IH] [|z p] //= [sz].
by apply/allpairsP; exists (z, p); split; rewrite ?mem_enum ?IH.
Qed.

Lemma term_le_sum_seq (I : eqType) (r : seq I) (F : I -> R) (p : I) :
  (forall i, (0 <= F i)%Re) -> p \in r -> (F p <= \sum_(i <- r) F i)%Re.
Proof.
move=> F_ge0; elim: r => [|i r IH] //; rewrite in_cons big_cons.
have s_ge0 : (0 <= \sum_(j <- r) F j)%Re by exact: (@sum_ge0 _ r xpredT).
have Fi_ge0 := F_ge0 i.
by case/orP=> [/eqP->|/IH]; move: s_ge0 Fi_ge0;
  move: (\sum_(j <- r) F j) => s; to_R; Lra.lra.
Qed.

(** X15.  With the name [statistic] bound, the returned value bounds the
    logarithm of the joint weight of every hidden-state path with one
    state more than there are observations: no single path, the most
    likely one included, weighs more than the partition function. *)
Theorem hmm_path_bound (obs : ExpFam.type) (G : globals obs)
    (stat : ExpFam.obs_t obs -> ExpFam.eta_t obs) (N : nat)
    (log_pi : 'rV[R]_N) (log_A : 'M[R]_N)
    (etas : N.-tuple (ExpFam.eta_t obs * R))
    (data : seq (ExpFam.obs_t obs)) (p : seq 'I_N) :
  g_statistic G = Some stat -> size p = (size data).+1 ->
  exists2 v, hmm_log_partition_function G (log_pi, log_A, etas) data = Ok v &
             (ln (joint_weight stat log_pi log_A etas p data) <= v)%Re.
Proof.
move=> bound sz; have p_path := mem_paths sz.
case: p sz p_path => [|z0 p] // _.
case: N log_pi log_A etas z0 p => [|N] log_pi log_A etas z0 p p_path.
  by case: z0 p_path.
rewrite (hmm_forward_sum bound) -joint_weight_sum; eexists; first by [].
have w_pos := joint_weight_pos stat log_pi log_A etas z0 p data.
have := @term_le_sum_seq _ _ (joint_weight stat log_pi log_A etas ^~ data)
          _ _ p_path.
move=> /(_ _)/wrap[]; last first.
  case=> [w_lt|<-]; last exact: Rle_refl.
  by apply: Rlt_le; apply: ln_increasing.
case=> [|z p'] /=; first exact: Rle_refl.
by apply: Rlt_le; exact: (joint_weight_pos stat log_pi log_A etas z p' data).
Qed.

Lemma hmm_path_bound_witness :
  exists2 v,
    hmm_log_partition_function gaussian_globals
      (log_pi_example, log_A_example, etas_example) [:: y_example] = Ok v &
    (ln (joint_weight (@ExpFam.statistic (Gaussian.family 1)) log_pi_example
           log_A_example etas_example [:: ord0; ord0] [:: y_example])
     <= v)%Re.
Proof.
exact: (@hmm_path_bound (Gaussian.family 1) gaussian_globals
          (@ExpFam.statistic (Gaussian.family 1)) 2 log_pi_example
          log_A_example etas_example [:: y_example] [:: ord0; ord0]
          (erefl _) (erefl _)).
Defined.

(** X16.  With the name [statistic] bound, adding a constant [c] to every
    entry of [log_pi] adds [c] to the returned value: unnormalised initial
    weights only shift the log partition function. *)
Theorem hmm_shift_log_pi (obs : ExpFam.type) (G : globals obs)
    (stat : ExpFam.obs_t obs -> ExpFam.eta_t obs) (N : nat)
    (log_pi : 'rV[R]_N) (log_A : 'M[R]_N)
    (etas : N.-tuple (ExpFam.eta_t obs * R))
    (data : seq (ExpFam.obs_t obs)) (c v : R) :
  g_statistic G = Some stat ->
  hmm_log_partition_function G (log_pi, log_A, etas) data = Ok v ->
  hmm_log_partition_function G (map_mx (Rplus c) log_pi, log_A, etas) data
    = Ok (c + v).
Proof.
move=> bound.
case: N log_pi log_A etas => [|N] log_pi log_A etas; first by rewrite hmm_no_state.
rewrite !(hmm_forward_sum bound) => -[<-]; congr Ok.
set S := (X in _ = c + ln X).
have S_pos : (0 < S)%Re.
  apply: sum_pos => [|z]; last first.
    by apply: Rmult_lt_0_compat; [exact: exp_pos | exact: tail_weight_pos].
  by move=> /(congr1 size); rewrite /index_enum -enumT size_enum_ord.
have -> : \sum_z exp ((map_mx (Rplus c) log_pi) ord0 z)
                  * tail_weight stat log_A etas z data = exp c * S.
  by rewrite mulr_sumr; apply: eq_bigr => z _; rewrite mxE exp_plus mulrA.
by rewrite (ln_mult _ _ (exp_pos c) S_pos) ln_exp.
Qed.

Lemma hmm_shift_log_pi_witness :
  hmm_log_partition_function gaussian_globals
    (map_mx (Rplus 1%Re) log_pi_example, log_A_example, etas_example)
    [:: y_example]
  = Ok (1%Re + ln (1 / 2 + 1 / 2 * exp (1 / 2))%Re).
Proof.
apply: (@hmm_shift_log_pi (Gaussian.family 1) gaussian_globals
          (@ExpFam.statistic (Gaussian.family 1))) => //.
exact: hmm_example_value.
Defined.

(** ** obs_natparam and log_likelihoods *)

Lemma tmapM_tnth (A B : Type) (f : A -> result B) (n : nat)
    (t : n.-tuple A) (ys : n.-tuple B) :
  tmapM f t = Ok ys -> forall i, f (tnth t i) = Ok (tnth ys i).
Proof.
elim: n t ys => [|n IH] t ys /=; first by move=> _ [].
case f0: (f (thead t)) => [y|e] //=.
case fr: (tmapM f (behead_tuple t)) => [ys'|e] //= -[<-] i.
case: (unliftP ord0 i) => [j ->|->]; last by rewrite tnth0.
rewrite tnthS -(IH _ _ fr j) tnth_behead.
by congr (f (tnth t _)); apply: val_inj; rewrite /= inordK ?ltnS.
Qed.

(** X17.  With [statistic] bound to the Gaussian statistic, the entry of
    [log_likelihoods(y, etas)] for a state of mean [mu] and covariance
    [Sigma] of positive determinant, [etas] being what [E_step] builds
    with [obs_natparam], is
    [-1/2 y^T J y + (J mu)^T y + 1/2 mu^T J mu + 1/2 log|Sigma|] with
    [J] the inverse of [Sigma]: the last two terms enter with the sign
    opposite to that of the Gaussian log density. *)
Theorem Gaussian_log_likelihoods (D N : nat) (G : globals (Gaussian.family D))
    (thetas : N.-tuple ('cV[R]_D * 'M[R]_D))
    (etas : N.-tuple ('M[R]_D * 'cV[R]_D * R)) (y : 'cV[R]_D) :
  g_statistic G = Some (@ExpFam.statistic (Gaussian.family D)) ->
  tmapM (obs_natparam (obs:=Gaussian.family D)) thetas = Ok etas ->
  (forall k, (0 < \det (tnth thetas k).2)%Re) ->
  exists2 ll, log_likelihoods G y etas = Ok ll &
    forall k,
      let mu := (tnth thetas k).1 in
      let J := invmx (tnth thetas k).2 in
      ll ord0 k = (- (1 / 2) * np_dot y (J *m y) + np_dot (J *m mu) y
                   + 1 / 2 * np_dot mu (J *m mu)
                   + 1 / 2 * ln (\det (tnth thetas k).2))%Re.
Proof.
move=> bound built det_pos; rewrite /log_likelihoods bound /=.
eexists; first by []; move=> k /=; rewrite mxE.
have := tmapM_tnth built k; have := det_pos k.
case: (tnth thetas k) => mu Sigma /= det_k.
have S_unit : Sigma \in unitmx by rewrite unitmxE unitfE; exact: Rpos_neq0.
have := Gaussian_logZ_eta_value mu S_unit det_k.
rewrite /obs_natparam /Gaussian_logZ_eta /= Gaussian_eta_unit //= => -> /=.
move=> -[<-].
rewrite (@natparam_inner (Gaussian.family D)) /= Gaussian_inner_quadratic.
have -> : np_dot y (((- 1 / 2)%Re *: invmx Sigma) *m y)
          = (- 1 / 2)%Re * np_dot y (invmx Sigma *m y).
  rewrite /np_dot mulr_sumr; apply: eq_bigr => i _.
  by rewrite -scalemxAl mxE mulrCA.
by move: (np_dot _ _) (np_dot _ _) (np_dot _ _) (ln _) => a b c d;
  to_R; Lra.lra.
Qed.

Lemma Gaussian_log_likelihoods_witness :
  exists2 ll,
    log_likelihoods gaussian_globals y_example etas_example = Ok ll &
    forall k,
      let mu := (tnth thetas_example k).1 in
      let J := invmx (tnth thetas_example k).2 in
      ll ord0 k
      = (- (1 / 2) * np_dot y_example (J *m y_example)
         + np_dot (J *m mu) y_example + 1 / 2 * np_dot mu (J *m mu)
         + 1 / 2 * ln (\det (tnth thetas_example k).2))%Re.
Proof.
apply: (@Gaussian_log_likelihoods 1 2 gaussian_globals thetas_example) => //.
  exact: (proj1 natural_params_example).
move=> k; rewrite (tnth_nth (0, Sigma_one)).
by case: k => [[|[|k]]] //= _; rewrite det1; to_R; Lra.lra.
Defined.

(** ** The script (lines 129-146) *)

(** X18.  Run as a script, the module ends in the [NameError] of
    [statistic]: whatever the ten observations, the means drawn for the
    two unit-covariance Gaussians and the positive draws that [normalize]
    turns into [init_pi] and [init_A], [EM] returns no [pi, A, thetas]. *)
Theorem main_raises gradient (fuel : nat) (data : 'M[R]_(10, 2))
    (u_pi : 'rV[R]_2) (u_A : 'M[R]_2) (means : 2.-tuple 'cV[R]_2) :
  (forall j, (0 < u_pi ord0 j)%Re) -> (forall i j, (0 < u_A i j)%Re) ->
  main gradient fuel data u_pi u_A means
    = Some (Raise (NameError "statistic")).
Proof.
move=> _ _; rewrite /main /EM /fixed_point EM_update_module.
have [|etas built] := @tmapM_ok _ _ (obs_natparam (obs:=Gaussian.family 2)) 2
                        [tuple of map rand_gaussian means].
  by move=> i; rewrite tnth_map; apply: Gaussian_natparam_ok; rewrite unitmx1.
by rewrite [tmapM _ _]built /rows_of enum_ordSl.
Qed.

Lemma main_raises_witness :
  main (@unused_gradient _ 2) 0 0 (const_mx 1%Re) (const_mx 1%Re)
    [tuple 0; 0]
  = Some (Raise (NameError "statistic")).
Proof.
by apply: main_raises => [j|i j]; rewrite mxE; Lra.lra.
Defined.
